(** * Protek 506 data logger: a shallow embedding of [protek506logger.py]

    The development follows the script top to bottom: the text primitives
    of Python [str] that the script relies on, the port auto-selection of
    [find_protek_port], the frame reader [read_data_from_serial], the
    [reading_pattern] regular expression with a backtracking matcher, and
    the acquisition loop with its log file.

    Text is modelled as [string]: a sequence of code points below 256,
    which covers everything the script can produce (frames are decoded as
    ASCII, and the only non-ASCII character written is the degree sign,
    code point 176). *)

From Stdlib Require Import Ascii String NArith List Sorted Permutation Lia.
From Stdlib Require Import Strings.Byte.
From stdpp Require Import base decidable option list sorting gmap strings.

Local Open Scope string_scope.
Local Open Scope list_scope.
Local Open Scope nat_scope.

(** ** Python [str] primitives *)

Definition code (c : ascii) : N := N_of_ascii c.

(** [str.isspace] on one code point: TAB..CR, FS..US, SPACE, NEL, NBSP. *)
Definition isspace (c : ascii) : bool :=
  let n := code c in
  ((9 <=? n) && (n <=? 13) || (28 <=? n) && (n <=? 32)
   || (n =? 133) || (n =? 160))%N.

(** [str.lower] on one code point: A..Z and the Latin-1 capitals. *)
Definition lower_char (c : ascii) : ascii :=
  let n := code c in
  if ((65 <=? n) && (n <=? 90)
      || (192 <=? n) && (n <=? 222) && negb (n =? 215))%N
  then ascii_of_N (n + 32) else c.

Fixpoint lower (s : string) : string :=
  match s with
  | "" => ""
  | String c s' => String (lower_char c) (lower s')
  end.

Fixpoint lstrip (s : string) : string :=
  match s with
  | "" => ""
  | String c s' => if isspace c then lstrip s' else s
  end.

Fixpoint rstrip (s : string) : string :=
  match s with
  | "" => ""
  | String c s' =>
      match rstrip s' with
      | "" => if isspace c then "" else String c ""
      | r => String c r
      end
  end.

(** [s.strip()] *)
Definition strip (s : string) : string := rstrip (lstrip s).

(** [s.startswith(p)] *)
Fixpoint startswith (s p : string) {struct p} : bool :=
  match p, s with
  | "", _ => true
  | String _ _, "" => false
  | String a p', String b s' => if decide (a = b) then startswith s' p' else false
  end.

(** [needle in s] *)
Fixpoint contains (s needle : string) : bool :=
  startswith s needle
  || match s with
     | "" => false
     | String _ s' => contains s' needle
     end.

(** [s[n:]] *)
Fixpoint drop_str (n : nat) (s : string) : string :=
  match n, s with
  | O, _ => s
  | S _, "" => ""
  | S n', String _ s' => drop_str n' s'
  end.

(** [s[:n]] *)
Fixpoint take_str (n : nat) (s : string) : string :=
  match n, s with
  | O, _ => ""
  | S _, "" => ""
  | S n', String c s' => String c (take_str n' s')
  end.

(** [s.replace(old, new)] for a non-empty [old]: occurrences are found
    left to right and do not overlap.  [skip] counts the characters of an
    occurrence that are still to be passed over. *)
Fixpoint replace_go (old new : string) (skip : nat) (s : string) : string :=
  match s with
  | "" => ""
  | String c s' =>
      match skip with
      | S k => replace_go old new k s'
      | O =>
          if startswith s old
          then new +:+ replace_go old new (String.length old - 1) s'
          else String c (replace_go old new 0 s')
      end
  end.

Definition replace (s old new : string) : string := replace_go old new 0 s.

(** ** Port auto-selection *)

(** One entry of [serial.tools.list_ports.comports()]. *)
Record port := Port {
  device : string;
  description : option string;
  manufacturer : option string
}.

(** [sorted(ports, key=lambda p: p.device)]: a stable sort, ascending in
    the code-point order of the device strings. *)
Fixpoint insert_port (p : port) (l : list port) : list port :=
  match l with
  | [] => [p]
  | q :: l' =>
      if String.leb (device p) (device q) then p :: l
      else q :: insert_port p l'
  end.

Fixpoint sorted (l : list port) : list port :=
  match l with
  | [] => []
  | p :: l' => insert_port p (sorted l')
  end.

(** The filter on the device name. *)
Definition is_serial_name (p : port) : bool :=
  let device_lower := lower (device p) in
  contains device_lower "usb" || contains device_lower "acm"
  || contains device_lower "serial" || startswith device_lower "com".

(** [x and 'FTDI' in x] for an attribute that may be [None]. *)
Definition names_ftdi (x : option string) : bool :=
  match x with
  | None => false
  | Some s => negb (String.eqb s "") && contains s "FTDI"
  end.

Definition is_ftdi (p : port) : bool :=
  names_ftdi (manufacturer p) || names_ftdi (description p).

(** One iteration of the [for p in ports] loop on [candidates]. *)
Definition add_candidate (candidates : list port) (p : port) : list port :=
  if is_serial_name p then
    if is_ftdi p then p :: candidates          (* candidates.insert(0, p) *)
    else candidates ++ [p]                     (* candidates.append(p) *)
  else candidates.

Definition candidates_of (comports : list port) : list port :=
  fold_left add_candidate (sorted comports) [].

(** [find_protek_port()]: the selected device, or [None] where the script
    prints the enumeration and exits. *)
Definition find_protek_port (comports : list port) : option string :=
  match candidates_of comports with
  | [] => None
  | selected :: _ => Some (device selected)
  end.

(** ** The regular expression engine

    [reading_pattern] only uses single characters and character classes,
    each possibly under a greedy [?], [*] or [+], in a sequence, and one
    top-level alternation.  [match_items] is the backtracking matcher of
    such a sequence: a greedy quantifier first tries to take one more
    character and falls back to the rest of the sequence when that fails.
    The result is the number of characters matched. *)

Module Re.

Inductive item :=
| One (p : ascii -> bool)
| Opt (p : ascii -> bool)
| Star (p : ascii -> bool)
| Plus (p : ascii -> bool).

Definition succ (r : option nat) : option nat :=
  match r with Some n => Some (S n) | None => None end.

Fixpoint match_items (its : list item) : string -> option nat :=
  match its with
  | [] => fun _ => Some 0
  | it :: rest =>
      let star (p : ascii -> bool) :=
        fix star (s : string) : option nat :=
          match s with
          | String c s' =>
              if p c then
                match star s' with
                | Some n => Some (S n)
                | None => match_items rest s
                end
              else match_items rest s
          | "" => match_items rest s
          end in
      match it with
      | One p => fun s =>
          match s with
          | String c s' => if p c then succ (match_items rest s') else None
          | "" => None
          end
      | Opt p => fun s =>
          match s with
          | String c s' =>
              if p c then
                match match_items rest s' with
                | Some n => Some (S n)
                | None => match_items rest s
                end
              else match_items rest s
          | "" => match_items rest s
          end
      | Star p => star p
      | Plus p => fun s =>
          match s with
          | String c s' => if p c then succ (star p s') else None
          | "" => None
          end
      end
  end.

(** Alternation: the first branch that matches wins. *)
Fixpoint match_alts (pat : list (list item)) (s : string) : option nat :=
  match pat with
  | [] => None
  | b :: pat' =>
      match match_items b s with
      | Some n => Some n
      | None => match_alts pat' s
      end
  end.

(** [pattern.search(s)]: the first start position, from [pos] on, at
    which the pattern matches; the result is [(m.start(), m.end())]. *)
Fixpoint search_from (pat : list (list item)) (pos : nat) (s : string)
  : option (nat * nat) :=
  match match_alts pat s with
  | Some n => Some (pos, pos + n)
  | None =>
      match s with
      | "" => None
      | String _ s' => search_from pat (S pos) s'
      end
  end.

Definition search (pat : list (list item)) (s : string) : option (nat * nat) :=
  search_from pat 0 s.

(** The strings a sequence matches. *)
Inductive lang : list item -> string -> Prop :=
| lang_nil : lang [] ""
| lang_one p r c t : p c = true -> lang r t -> lang (One p :: r) (String c t)
| lang_opt_skip p r t : lang r t -> lang (Opt p :: r) t
| lang_opt_take p r c t : p c = true -> lang r t -> lang (Opt p :: r) (String c t)
| lang_star_stop p r t : lang r t -> lang (Star p :: r) t
| lang_star_more p r c t :
    p c = true -> lang (Star p :: r) t -> lang (Star p :: r) (String c t)
| lang_plus p r c t :
    p c = true -> lang (Star p :: r) t -> lang (Plus p :: r) (String c t).

(** Character tests under [re.IGNORECASE]. *)
Definition ci (c : ascii) : ascii -> bool :=
  fun x => Ascii.eqb (lower_char x) (lower_char c).

Fixpoint one_of (set : string) : ascii -> bool :=
  fun x =>
    match set with
    | "" => false
    | String c set' => ci c x || one_of set' x
    end.

Definition digit : ascii -> bool :=
  fun x => ((48 <=? code x) && (code x <=? 57))%N.

Fixpoint literal (s : string) : list item :=
  match s with
  | "" => []
  | String c s' => One (ci c) :: literal s'
  end.

End Re.

(** [[\-+]?[0-9]*\.?[0-9]+[kmuz]?] *)
Definition numeric_branch : list Re.item :=
  [Re.Opt (Re.one_of "-+"); Re.Star Re.digit; Re.Opt (Re.ci ".");
   Re.Plus Re.digit; Re.Opt (Re.one_of "kmuz")].

(** [\.OL|-OL|OL|OPEN|SHORT|High|Low|----] *)
Definition literal_tokens : list string :=
  [".OL"; "-OL"; "OL"; "OPEN"; "SHORT"; "High"; "Low"; "----"].

Definition literal_branches : list (list Re.item) :=
  map Re.literal literal_tokens.

Definition reading_pattern : list (list Re.item) :=
  numeric_branch :: literal_branches.

(** ** The mode table *)

Definition MODE_MAP : gmap ascii string :=
  list_to_map
    [("A"%char, "AC"); ("B"%char, "DIO"); ("C"%char, "CAP");
     ("D"%char, "DC"); ("F"%char, "FR"); ("I"%char, "IND");
     ("L"%char, "DIO"); ("R"%char, "RES"); ("T"%char, "TEMP")].

(** [MODE_MAP.get(mode_code, 'UNKNOWN')] *)
Definition mode_of (mode_code : ascii) : string :=
  default "UNKNOWN" (MODE_MAP !! mode_code).

(** [set(MODE_MAP.keys())] *)
Definition first_byte_chars : gset ascii := dom MODE_MAP.

(** The short names that occur in the table. *)
Definition mode_names : list string :=
  ["AC"; "DIO"; "CAP"; "DC"; "FR"; "IND"; "RES"; "TEMP"].

(** ** Reading and units *)

(** Lines 233-242: the search and the two assignments of each branch. *)
Definition extract (rest : string) : string * string :=
  match Re.search reading_pattern rest with
  | Some (b, e) => (take_str (e - b) (drop_str b rest), strip (drop_str e rest))
  | None => ("", strip rest)
  end.

Definition degree : ascii := ascii_of_N 176.

(** Lines 244-246. *)
Definition fix_degree (units : string) : string :=
  if contains units "^C" then replace units "^C" (String degree "C")
  else units.

(** ** The serial channel, the log file and the loop

    The log file is the list of rows written to it.  Every row ends with
    the writer's line terminator, so the size that [tell()] reports at the
    end of the file is zero exactly when the list is empty.  [buffer]
    holds the rows written since the last flush. *)

Definition row := list string.

Inductive event :=
| Trigger                    (* ser.write(b'\n') *)
| ReadUntil                  (* ser.read_until(b'\r') *)
| Sleep                      (* time.sleep(delay) *)
| Print (s : string)
| WriteRow (r : row)
| Flush.

Record world := World {
  disk : list row;
  buffer : list row;
  trace : list event
}.

Definition emit (e : event) (w : world) : world :=
  World (disk w) (buffer w) (trace w ++ [e]).

Definition writerow (r : row) (w : world) : world :=
  World (disk w) (buffer w ++ [r]) (trace w ++ [WriteRow r]).

Definition flush (w : world) : world :=
  World (disk w ++ buffer w) [] (trace w ++ [Flush]).

(** [bytes.decode('ascii', errors='ignore')] *)
Fixpoint decode_ascii_ignore (bs : list byte) : string :=
  match bs with
  | [] => ""
  | b :: bs' =>
      if (Byte.to_N b <? 128)%N
      then String (ascii_of_byte b) (decode_ascii_ignore bs')
      else decode_ascii_ignore bs'
  end.

(** Lines 183-187 on the bytes [line] that [read_until] returned. *)
Definition frame_text (line : list byte) : option string :=
  match last line with
  | None => None
  | Some b =>
      if decide (Byte.to_N b = 13%N)
      then Some (strip (decode_ascii_ignore (removelast line)))
      else None
  end.

(** [read_data_from_serial(ser)], where the channel answers [line]. *)
Definition read_data_from_serial (w : world) (line : list byte)
  : world * option string :=
  (emit ReadUntil (emit Trigger w), frame_text line).

(** What the environment supplies in one cycle: the bytes the channel
    returns and the two [strftime] renderings of [now]. *)
Record tick := Tick {
  line : list byte;
  date_str : string;           (* now.strftime(DATE_FORMAT) *)
  time_us : string             (* now.strftime(TIME_FORMAT) *)
}.

(** [s[:-3]] *)
Definition drop_last3 (s : string) : string :=
  take_str (String.length s - 3) s.

(** The record built from an accepted frame (lines 221-246). *)
Definition record_of (t : tick) (mode_code : ascii) (tail : string) : row :=
  let time_str := drop_last3 (time_us t) in
  let mode := mode_of mode_code in
  let rest := strip tail in
  let '(reading, units) := extract rest in
  let units := fix_degree units in
  [date_str t; time_str; mode; reading; units].

(** The gate and the record: [None] is a rejected frame. *)
Definition parse (t : tick) (data : string) : option row :=
  match data with
  | "" => None
  | String mode_code tail =>
      if bool_decide (mode_code ∈ first_byte_chars)
      then Some (record_of t mode_code tail)
      else None
  end.

(** One iteration of [while True]. *)
Definition cycle (w : world) (t : tick) : world :=
  let '(w, data) := read_data_from_serial w (line t) in
  match data with
  | None => emit Sleep w
  | Some data =>
      match parse t data with
      | None => emit Sleep w
      | Some r =>
          let w := emit (Print (drop_last3 (time_us t) +:+ " " +:+ data)) w in
          let w := writerow r w in
          let w := flush w in
          emit Sleep w
      end
  end.

Definition run (w : world) (ticks : list tick) : world :=
  fold_left cycle ticks w.

Definition header : row := ["date"; "time"; "mode"; "reading"; "units"].

(** Opening the log in append mode: the header check. *)
Definition open_log (content : list row) : world :=
  let w := World content [] [] in
  if decide (content = []) then writerow header w else w.

(** Leaving the [with] block closes the file, which flushes it. *)
Definition close (w : world) : list row := disk w ++ buffer w.

(** One run of the script on a log with the given content. *)
Definition session (content : list row) (ticks : list tick) : list row :=
  close (run (open_log content) ticks).

Definition sessions (content : list row) (runs : list (list tick)) : list row :=
  fold_left session runs content.

(** ** Vocabulary of the properties *)

(** A literal token: one of the fixed words, in any letter case. *)
Definition literal_token (t : string) : Prop :=
  ∃ w, w ∈ literal_tokens ∧ lower t = lower w.

Fixpoint all_chars (p : ascii -> bool) (s : string) : bool :=
  match s with
  | "" => true
  | String c s' => p c && all_chars p s'
  end.

(** A numeric token: an optional sign, digits, an optional point, at
    least one digit, an optional suffix letter in either case. *)
Definition numeric_token (t : string) : Prop :=
  ∃ sign int dot frac suffix,
    t = sign +:+ int +:+ dot +:+ frac +:+ suffix
    ∧ sign ∈ [""; "-"; "+"]
    ∧ all_chars Re.digit int = true
    ∧ dot ∈ [""; "."]
    ∧ frac ≠ "" ∧ all_chars Re.digit frac = true
    ∧ suffix ∈ [""; "k"; "m"; "u"; "z"; "K"; "M"; "U"; "Z"].

(** A token starts at position [i] of [s]. *)
Definition token_at (s : string) (i : nat) : Prop :=
  ∃ t, (literal_token t ∨ numeric_token t) ∧ startswith (drop_str i s) t = true.

Fixpoint all_space (s : string) : bool :=
  match s with
  | "" => true
  | String c s' => isspace c && all_space s'
  end.

Definition head_char (s : string) : option ascii :=
  match s with
  | "" => None
  | String c _ => Some c
  end.

Fixpoint last_char (s : string) : option ascii :=
  match s with
  | "" => None
  | String c "" => Some c
  | String _ s' => last_char s'
  end.

Definition not_space (c : option ascii) : Prop :=
  match c with
  | None => True
  | Some c => isspace c = false
  end.

(** No whitespace at either end. *)
Definition trimmed (s : string) : Prop :=
  not_space (head_char s) ∧ not_space (last_char s).

(** Number of header rows in a log. *)
Definition header_count (content : list row) : nat :=
  length (List.filter (λ r, bool_decide (r = header)) content).

(** A log that starts with the header and holds it once. *)
Definition well_headed (content : list row) : Prop :=
  head content = Some header ∧ header_count content = 1.

(** On a trace: no trigger is sent while a written row is unflushed.
    [dirty] tells whether a row has been written since the last flush. *)
Fixpoint flushed_at_triggers (dirty : bool) (tr : list event) : bool :=
  match tr with
  | [] => true
  | Trigger :: tr' => negb dirty && flushed_at_triggers dirty tr'
  | WriteRow _ :: tr' => flushed_at_triggers true tr'
  | Flush :: tr' => flushed_at_triggers false tr'
  | _ :: tr' => flushed_at_triggers dirty tr'
  end.

(** The mode column of a five-column row. *)
Definition mode_column (r : row) : option string := r !! 2.

(** Python's order on [str], used as the sort key order. *)
Definition device_le (p q : port) : Prop := String.le (device p) (device q).

(** The stable partition the specification describes. *)
Definition stable_partition (l : list port) : list port :=
  List.filter is_ftdi l ++ List.filter (λ p, negb (is_ftdi p)) l.

(** The row that a cycle appends, if its frame is accepted. *)
Definition accepted (t : tick) : option row :=
  match frame_text (line t) with
  | None => None
  | Some data => parse t data
  end.

Definition accepted_rows (ticks : list tick) : list row := omap accepted ticks.

(** The mangled marker and the glyph that replaces it. *)
Definition marker : string := "^C".
Definition glyph : string := String degree "C".

(** Three ports in device order: A and C name the FTDI chipset, B does not. *)
Definition port_A : port :=
  Port "/dev/ttyUSB0" (Some "FT232R USB UART") (Some "FTDI").
Definition port_B : port :=
  Port "/dev/ttyUSB1" (Some "CP2102 USB to UART Bridge Controller")
    (Some "Silicon Labs").
Definition port_C : port :=
  Port "/dev/ttyUSB2" (Some "FT232R USB UART") (Some "FTDI").

(** The first two characters in lower case. *)
Definition key (s : string) : string := lower (take_str 2 s).

(** [units.replace('^C', ...)], without the guard in front of it. *)
Definition fixed (s : string) : string := replace s marker glyph.

(** ** The port that is opened (lines 146-156)

    [NotFound] is the [parser.error] of the manual override, with the
    device names it reports; [NoCandidate] is the exit of
    [find_protek_port], with the ports it lists. *)

Inductive port_outcome :=
| Opened (port : string)
| NotFound (port : string) (available_ports : list string)
| NoCandidate (ports : list port).

Definition auto_detect (comports : list port) : port_outcome :=
  match find_protek_port comports with
  | Some d => Opened d
  | None => NoCandidate (sorted comports)
  end.

(** [args.port] is [None] without the option; an empty string is false
    for [if args.port] as well. *)
Definition choose_port (override : option string) (comports : list port)
  : port_outcome :=
  match override with
  | Some port =>
      if String.eqb port "" then auto_detect comports
      else
        let available_ports := map device comports in
        if bool_decide (port ∈ available_ports) then Opened port
        else NotFound port available_ports
  | None => auto_detect comports
  end.

(** ** Vocabulary of the further properties *)

(** A code point of the ASCII range. *)
Definition is_ascii (c : ascii) : bool := (code c <? 128)%N.

(** The bytes of a text of code points below 256, one byte each: what the
    meter puts on the line for an ASCII text. *)
Definition bytes_of (s : string) : list byte :=
  map byte_of_ascii (list_ascii_of_string s).

(** Counting the events of one kind on a trace. *)
Definition is_trigger (e : event) : bool :=
  match e with Trigger => true | _ => false end.
Definition is_read (e : event) : bool :=
  match e with ReadUntil => true | _ => false end.
Definition is_sleep (e : event) : bool :=
  match e with Sleep => true | _ => false end.
Definition is_write (e : event) : bool :=
  match e with WriteRow _ => true | _ => false end.
Definition is_flush (e : event) : bool :=
  match e with Flush => true | _ => false end.

Definition count_events (f : event -> bool) (tr : list event) : nat :=
  length (List.filter f tr).

(** The matcher of a sequence takes at least as much as any string of
    the sequence that starts the text. *)
Definition maximal (its : list Re.item) : Prop :=
  ∀ s n t,
    Re.match_items its s = Some n → Re.lang its t →
    startswith s t = true → String.length t ≤ n.

(** No string of the sequence starts with a character of the class. *)
Definition excludes (p : ascii -> bool) (its : list Re.item) : Prop :=
  ∀ c t, Re.lang its (String c t) → p c = false.

(** The tails of the numeric branch: suffix; last digits and suffix;
    point, last digits and suffix; all but the sign. *)
Definition r4 : list Re.item := [Re.Opt (Re.one_of "kmuz")].
Definition r3 : list Re.item := Re.Plus Re.digit :: r4.
Definition r2 : list Re.item := Re.Opt (Re.ci ".") :: r3.
Definition r1 : list Re.item := Re.Star Re.digit :: r2.

(** A text without any whitespace. *)
Definition no_space (s : string) : bool :=
  all_chars (fun c => negb (isspace c)) s.

(** The text is empty or starts with whitespace. *)
Definition space_led (s : string) : Prop :=
  match head_char s with
  | None => True
  | Some c => isspace c = true
  end.

(** * Properties *)

(** ** The mode table and the gate *)

Section mode_table.

Lemma mode_lookup_names (c : ascii) (m : string) :
  MODE_MAP !! c = Some m → m ∈ mode_names.
Proof.
  intros H%elem_of_list_to_map_2.
  apply (list_elem_of_fmap_2 snd) in H. simpl in H.
  repeat (apply elem_of_cons in H as [->|H];
          [apply (bool_decide_unpack _); vm_compute; exact I|]).
  by apply elem_of_nil in H.
Qed.

Lemma unknown_not_a_name : "UNKNOWN" ∉ mode_names.
Proof. apply (bool_decide_eq_false_1 _). by vm_compute. Qed.

Lemma gate_lookup (c : ascii) :
  c ∈ first_byte_chars ↔ is_Some (MODE_MAP !! c).
Proof. unfold first_byte_chars. apply elem_of_dom. Qed.

Lemma mode_of_admitted (c : ascii) :
  c ∈ first_byte_chars → mode_of c ∈ mode_names.
Proof.
  intros [m Hm]%gate_lookup. unfold mode_of. rewrite Hm. simpl.
  by eapply mode_lookup_names.
Qed.

Lemma mode_of_rejected (c : ascii) :
  c ∉ first_byte_chars → mode_of c = "UNKNOWN".
Proof.
  intros Hc. unfold mode_of.
  destruct (MODE_MAP !! c) as [m|] eqn:Hm; [|done].
  exfalso. apply Hc, gate_lookup. by exists m.
Qed.

End mode_table.

(** C6. The mode table is a fixed table on single characters with the
    nine keys A B C D F I L R T; looking up 'D' gives "DC", looking up 'R'
    gives "RES", looking up 'Z' gives "UNKNOWN"; and for every character
    the lookup returns a value: a name of the table for a key, the
    sentinel "UNKNOWN" for any other character. *)
Theorem C6_mode_mapping (c : ascii) :
  mode_of "D" = "DC" ∧ mode_of "R" = "RES" ∧ mode_of "Z" = "UNKNOWN"
  ∧ first_byte_chars
    = list_to_set (list_ascii_of_string "ABCDFILRT")
  ∧ (if bool_decide (c ∈ first_byte_chars)
     then mode_of c ∈ mode_names
     else mode_of c = "UNKNOWN").
Proof.
  split_and!; [by vm_compute..|].
  case_bool_decide; auto using mode_of_admitted, mode_of_rejected.
Qed.

(** ** The acquisition loop *)

Section loop.

Lemma cycle_rejects (w : world) (t : tick) :
  accepted t = None →
  cycle w t = World (disk w) (buffer w) (trace w ++ [Trigger; ReadUntil; Sleep]).
Proof.
  unfold accepted, cycle, read_data_from_serial, emit. simpl.
  destruct (frame_text (line t)) as [data|]; [intros ->|intros _];
    simpl; by rewrite <- !app_assoc.
Qed.

Lemma cycle_accepts (w : world) (t : tick) (r : row) :
  accepted t = Some r →
  ∃ data,
    frame_text (line t) = Some data ∧
    cycle w t =
      World (disk w ++ buffer w ++ [r]) []
        (trace w ++ [Trigger; ReadUntil;
                     Print (drop_last3 (time_us t) +:+ " " +:+ data);
                     WriteRow r; Flush; Sleep]).
Proof.
  unfold accepted, cycle, read_data_from_serial, emit, writerow, flush. simpl.
  destruct (frame_text (line t)) as [data|]; [|done].
  intros ->. exists data. simpl. split; [done|].
  by rewrite <- !app_assoc.
Qed.

Lemma close_cycle (w : world) (t : tick) :
  close (cycle w t) = close w ++ option_list (accepted t).
Proof.
  destruct (accepted t) as [r|] eqn:Hacc.
  - destruct (cycle_accepts w t r Hacc) as (data & _ & ->).
    unfold close. simpl. by rewrite app_nil_r, app_assoc.
  - rewrite (cycle_rejects w t Hacc). unfold close. simpl.
    by rewrite app_nil_r.
Qed.

Lemma close_run (ticks : list tick) (w : world) :
  close (run w ticks) = close w ++ accepted_rows ticks.
Proof.
  revert w. induction ticks as [|t ticks IH]; intros w; simpl.
  - by rewrite app_nil_r.
  - unfold run in *. simpl. rewrite IH, close_cycle.
    rewrite <- app_assoc. f_equal. unfold accepted_rows. simpl.
    by destruct (accepted t).
Qed.

Lemma record_mode (t : tick) (c : ascii) (tail : string) :
  mode_column (record_of t c tail) = Some (mode_of c).
Proof. unfold record_of. by destruct (extract (strip tail)). Qed.

Lemma accepted_mode (t : tick) (r : row) :
  accepted t = Some r →
  ∃ m, mode_column r = Some m ∧ m ∈ mode_names.
Proof.
  unfold accepted, parse.
  destruct (frame_text (line t)) as [[|c tail]|]; [done| |done].
  case_bool_decide as Hc; [|done]. intros [= <-].
  exists (mode_of c). split; [apply record_mode|by apply mode_of_admitted].
Qed.

Lemma accepted_rows_modes (ticks : list tick) :
  Forall (λ r, ∃ m, mode_column r = Some m ∧ m ∈ mode_names)
    (accepted_rows ticks).
Proof.
  apply list.Forall_forall. intros r Hr.
  apply list_elem_of_omap in Hr as (t & _ & Ht).
  by eapply accepted_mode.
Qed.

End loop.

(** C4. Mode-code gate: when the decoded, trimmed text of the frame is
    empty, or its first character is not a key of the mode table, the
    cycle builds no record, writes nothing and leaves the log (flushed and
    buffered part) as it was; it only triggers, reads and sleeps. *)
Theorem C4_mode_code_gate (w : world) (t : tick) (data : string) :
  frame_text (line t) = Some data →
  (data = "" ∨ ∃ c tail, data = String c tail ∧ c ∉ first_byte_chars) →
  parse t data = None
  ∧ disk (cycle w t) = disk w
  ∧ buffer (cycle w t) = buffer w
  ∧ close (cycle w t) = close w
  ∧ trace (cycle w t) = trace w ++ [Trigger; ReadUntil; Sleep].
Proof.
  intros Hframe Hgate.
  assert (parse t data = None) as Hparse.
  { destruct Hgate as [->|(c & tail & -> & Hc)]; [done|].
    simpl. by rewrite bool_decide_eq_false_2. }
  assert (accepted t = None) as Hacc.
  { unfold accepted. by rewrite Hframe. }
  rewrite (cycle_rejects w t Hacc). done.
Qed.

Lemma C4_mode_code_gate_witness :
  let t := Tick [x5a; x20; x31; x0d] "2026-01-01" "12:00:00.000000" in
  let w := World [header] [] [] in
  frame_text (line t) = Some "Z 1"
  ∧ disk (cycle w t) = [header] ∧ buffer (cycle w t) = [].
Proof.
  intros t w.
  assert (frame_text (line t) = Some "Z 1") as Hframe by reflexivity.
  assert ("Z 1" = "" ∨ ∃ c tail, "Z 1" = String c tail ∧ c ∉ first_byte_chars)
    as Hgate.
  { right. exists "Z"%char, " 1". split; [reflexivity|].
    apply (bool_decide_eq_false_1 _). vm_compute. reflexivity. }
  destruct (C4_mode_code_gate w t "Z 1" Hframe Hgate) as (_ & Hd & Hb & _).
  split; [exact Hframe|]. split; [exact Hd|exact Hb].
Defined.

Section durability.

(** The events of one cycle. *)
Lemma cycle_trace (w : world) (t : tick) :
  ∃ tr, trace (cycle w t) = trace w ++ tr
        ∧ ∀ rest, flushed_at_triggers false rest = true →
                  flushed_at_triggers false (tr ++ rest) = true.
Proof.
  destruct (accepted t) as [r|] eqn:Hacc.
  - destruct (cycle_accepts w t r Hacc) as (data & _ & ->).
    eexists. split; [reflexivity|]. intros rest Hrest. simpl. exact Hrest.
  - rewrite (cycle_rejects w t Hacc).
    eexists. split; [reflexivity|]. intros rest Hrest. simpl. exact Hrest.
Qed.

Lemma run_trace (ticks : list tick) (w : world) :
  ∃ tr, trace (run w ticks) = trace w ++ tr
        ∧ flushed_at_triggers false tr = true.
Proof.
  revert w. induction ticks as [|t ticks IH]; intros w.
  - exists []. by rewrite app_nil_r.
  - destruct (cycle_trace w t) as (tr1 & Htr1 & Hok1).
    destruct (IH (cycle w t)) as (tr2 & Htr2 & Hok2).
    exists (tr1 ++ tr2). split; [|by apply Hok1].
    change (run w (t :: ticks)) with (run (cycle w t) ticks).
    by rewrite Htr2, Htr1, <- app_assoc.
Qed.

(** The check is not vacuous: a trigger right after a write is refused. *)
Example unflushed_trigger_refused (r : row) :
  flushed_at_triggers false [Trigger; ReadUntil; WriteRow r; Sleep; Trigger]
  = false.
Proof. reflexivity. Qed.

End durability.

(** C5. Durability ordering: a cycle that accepts a record performs, in
    this order, trigger, read, console print, row write, flush, sleep, and
    leaves the row on the flushed part of the log with nothing buffered;
    over any run of the loop, no trigger byte is sent while a written row
    is still unflushed. *)
Theorem C5_flush_before_next_trigger (w : world) (ticks : list tick) (t : tick) :
  match accepted t with
  | Some r =>
      ∃ data,
        trace (cycle w t)
        = trace w ++ [Trigger; ReadUntil;
                      Print (drop_last3 (time_us t) +:+ " " +:+ data);
                      WriteRow r; Flush; Sleep]
        ∧ disk (cycle w t) = disk w ++ buffer w ++ [r]
        ∧ buffer (cycle w t) = []
  | None => trace (cycle w t) = trace w ++ [Trigger; ReadUntil; Sleep]
  end
  ∧ ∃ tr, trace (run w ticks) = trace w ++ tr
          ∧ flushed_at_triggers false tr = true.
Proof.
  split; [|apply run_trace].
  destruct (accepted t) as [r|] eqn:Hacc.
  - destruct (cycle_accepts w t r Hacc) as (data & _ & ->). by exists data.
  - by rewrite (cycle_rejects w t Hacc).
Qed.

(** C10. The "UNKNOWN" sentinel never reaches the log: the rows that any
    run of the loop adds to the log all carry, in the mode column, one of
    the names AC, DIO, CAP, DC, FR, IND, RES, TEMP of the mode table, and
    none carries "UNKNOWN". *)
Theorem C10_unknown_never_persisted (w : world) (ticks : list tick) :
  close (run w ticks) = close w ++ accepted_rows ticks
  ∧ Forall (λ r, ∃ m, mode_column r = Some m
                      ∧ m ∈ mode_names ∧ m ≠ "UNKNOWN")
      (accepted_rows ticks).
Proof.
  split; [apply close_run|].
  eapply Forall_impl; [apply accepted_rows_modes|].
  intros r (m & Hcol & Hm). exists m. split_and!; [done..|].
  intros ->. by apply unknown_not_a_name.
Qed.

(** ** The header of the log *)

Section header_once.

Lemma accepted_not_header (t : tick) (r : row) :
  accepted t = Some r → r ≠ header.
Proof.
  intros (m & Hcol & Hm)%accepted_mode ->.
  injection Hcol as <-.
  revert Hm. apply (bool_decide_eq_false_1 _). by vm_compute.
Qed.

Lemma header_count_app (l1 l2 : list row) :
  header_count (l1 ++ l2) = header_count l1 + header_count l2.
Proof. unfold header_count. by rewrite List.filter_app, length_app. Qed.

Lemma header_count_accepted (ticks : list tick) :
  header_count (accepted_rows ticks) = 0.
Proof.
  unfold accepted_rows, header_count.
  induction ticks as [|t ticks IH]; simpl; [done|].
  destruct (accepted t) as [r|] eqn:Hacc; simpl; [|done].
  rewrite bool_decide_eq_false_2; [done|]. by eapply accepted_not_header.
Qed.

Lemma session_content (content : list row) (ticks : list tick) :
  session content ticks
  = content ++ (if decide (content = []) then [header] else [])
    ++ accepted_rows ticks.
Proof.
  unfold session. rewrite close_run. unfold open_log, close.
  destruct (decide (content = [])) as [->|Hne]; simpl; [done|].
  by rewrite app_nil_r.
Qed.

Lemma session_header_count (content : list row) (ticks : list tick) :
  header_count (session content ticks)
  = header_count content + (if decide (content = []) then 1 else 0).
Proof.
  rewrite session_content, !header_count_app, header_count_accepted.
  destruct (decide (content = [])); simpl; [|lia].
  unfold header_count. simpl. lia.
Qed.

Lemma session_from_empty (ticks : list tick) : well_headed (session [] ticks).
Proof.
  split; [by rewrite session_content|].
  by rewrite session_header_count.
Qed.

Lemma session_keeps (content : list row) (ticks : list tick) :
  well_headed content → well_headed (session content ticks).
Proof.
  intros [Hhd Hcount]. assert (content ≠ []) as Hne by (by intros ->).
  split.
  - rewrite session_content. by destruct content.
  - rewrite session_header_count, Hcount. by rewrite decide_False.
Qed.

Lemma sessions_keep (runs : list (list tick)) (content : list row) :
  well_headed content → well_headed (sessions content runs).
Proof.
  revert content. induction runs as [|ticks runs IH]; intros content H.
  - done.
  - apply IH. by apply session_keeps.
Qed.

End header_once.

(** C3. Header-once rule: opening the log writes the five-field header
    row exactly when the log is empty at that time, and before any data
    row of the run; a run on a non-empty log adds no header; data rows are
    never equal to the header; so a log grown from the empty log by any
    number of runs is either still empty (no run yet) or starts with the
    header and contains it exactly once. *)
Theorem C3_header_once
    (content : list row) (ticks : list tick) (runs : list (list tick)) :
  open_log content
  = (if decide (content = [])
     then World [] [header] [WriteRow header]
     else World content [] [])
  ∧ session content ticks
    = content ++ (if decide (content = []) then [header] else [])
      ++ accepted_rows ticks
  ∧ header_count (accepted_rows ticks) = 0
  ∧ header_count (session content ticks)
    = header_count content + (if decide (content = []) then 1 else 0)
  ∧ match runs with
    | [] => sessions [] runs = []
    | _ :: _ =>
        head (sessions [] runs) = Some header
        ∧ header_count (sessions [] runs) = 1
    end.
Proof.
  split_and!.
  - unfold open_log. by destruct (decide (content = [])) as [->|].
  - apply session_content.
  - apply header_count_accepted.
  - apply session_header_count.
  - destruct runs as [|first runs]; [done|].
    apply (sessions_keep runs), session_from_empty.
Qed.

(** ** Text primitives *)

Section text.

Lemma app_cons (c : ascii) (a b : string) :
  String c a +:+ b = String c (a +:+ b).
Proof. reflexivity. Qed.

Lemma app_empty_l (a : string) : "" +:+ a = a.
Proof. reflexivity. Qed.

Lemma app_empty_r (a : string) : a +:+ "" = a.
Proof. induction a as [|c a IH]; [done|]. by rewrite app_cons, IH. Qed.

Lemma app_assoc_str (a b c : string) : (a +:+ b) +:+ c = a +:+ (b +:+ c).
Proof. induction a as [|x a IH]; [done|]. by rewrite !app_cons, IH. Qed.

Lemma length_app_str (a b : string) :
  String.length (a +:+ b) = String.length a + String.length b.
Proof. induction a as [|x a IH]; [done|]. rewrite app_cons. simpl. by rewrite IH. Qed.

Lemma lstrip_split (s : string) :
  ∃ pre, s = pre +:+ lstrip s ∧ all_space pre = true.
Proof.
  induction s as [|c s (pre & Hs & Hpre)]; [by exists ""|].
  simpl. destruct (isspace c) eqn:Hc.
  - exists (String c pre). rewrite app_cons, <- Hs. simpl. by rewrite Hc.
  - by exists "".
Qed.

Lemma lstrip_head (s : string) : not_space (head_char (lstrip s)).
Proof.
  induction s as [|c s IH]; [done|].
  simpl. by destruct (isspace c) eqn:Hc.
Qed.

Lemma rstrip_split (s : string) :
  ∃ post, s = rstrip s +:+ post ∧ all_space post = true.
Proof.
  induction s as [|c s (post & Hs & Hpost)]; [by exists ""|].
  simpl. destruct (rstrip s) as [|d r] eqn:Hr.
  - rewrite app_empty_l in Hs. subst post.
    destruct (isspace c) eqn:Hc.
    + exists (String c s). simpl. by rewrite Hc.
    + by exists s.
  - exists post. by rewrite app_cons, <- Hs.
Qed.

Lemma rstrip_last (s : string) : not_space (last_char (rstrip s)).
Proof.
  induction s as [|c s IH]; [done|].
  simpl. destruct (rstrip s) as [|d r] eqn:Hr.
  - by destruct (isspace c) eqn:Hc.
  - exact IH.
Qed.

Lemma rstrip_head (s : string) :
  not_space (head_char s) → not_space (head_char (rstrip s)).
Proof.
  destruct s as [|c s]; [done|]. simpl. intros Hc.
  destruct (rstrip s); [|done]. by rewrite Hc.
Qed.

Lemma strip_split (s : string) :
  ∃ pre post,
    s = pre +:+ strip s +:+ post
    ∧ all_space pre = true ∧ all_space post = true.
Proof.
  destruct (lstrip_split s) as (pre & Hs & Hpre).
  destruct (rstrip_split (lstrip s)) as (post & Hl & Hpost).
  exists pre, post. unfold strip. by rewrite <- Hl.
Qed.

Lemma strip_trimmed (s : string) : trimmed (strip s).
Proof.
  split; [apply rstrip_head, lstrip_head|apply rstrip_last].
Qed.

Lemma lstrip_fixed (s : string) : not_space (head_char s) → lstrip s = s.
Proof. destruct s as [|c s]; [done|]. simpl. by intros ->. Qed.

Lemma rstrip_fixed (s : string) : not_space (last_char s) → rstrip s = s.
Proof.
  induction s as [|c s IH]; [done|]. simpl. intros H.
  destruct s as [|d s]; [simpl in *; by rewrite H|].
  rewrite IH by exact H. done.
Qed.

(** [strip] leaves a trimmed string alone; in particular it is idempotent. *)
Lemma strip_fixed (s : string) : trimmed s → strip s = s.
Proof.
  intros [Hh Hl]. unfold strip. rewrite (lstrip_fixed s Hh).
  by apply rstrip_fixed.
Qed.

Lemma strip_strip (s : string) : strip (strip s) = strip s.
Proof. apply strip_fixed, strip_trimmed. Qed.

Lemma decode_ascii_ignore_filter (bs : list byte) :
  list_ascii_of_string (decode_ascii_ignore bs)
  = map ascii_of_byte (List.filter (λ b, (Byte.to_N b <? 128)%N) bs).
Proof.
  induction bs as [|b bs IH]; [done|].
  simpl. destruct (Byte.to_N b <? 128)%N; simpl; by rewrite IH.
Qed.

Lemma frame_text_terminated (frame : list byte) :
  frame_text (frame ++ [x0d]) = Some (strip (decode_ascii_ignore frame)).
Proof.
  unfold frame_text. rewrite last_snoc, removelast_last. done.
Qed.

End text.

(** C7. Frame decoding is total: for every byte sequence that arrives in
    front of the terminator, the reader returns a text; that text is the
    ASCII bytes of the frame in their order (bytes of value 128 or more
    are dropped), with the whitespace at both ends removed. *)
Theorem C7_frame_decoding_total (frame : list byte) :
  frame_text (frame ++ [x0d]) = Some (strip (decode_ascii_ignore frame))
  ∧ list_ascii_of_string (decode_ascii_ignore frame)
    = map ascii_of_byte (List.filter (λ b, (Byte.to_N b <? 128)%N) frame)
  ∧ trimmed (strip (decode_ascii_ignore frame))
  ∧ ∃ pre post,
      decode_ascii_ignore frame
      = pre +:+ strip (decode_ascii_ignore frame) +:+ post
      ∧ all_space pre = true ∧ all_space post = true.
Proof.
  split_and!.
  - apply frame_text_terminated.
  - apply decode_ascii_ignore_filter.
  - apply strip_trimmed.
  - apply strip_split.
Qed.

(** ** The degree sign *)

Section degree_fix.

Lemma fixed_marker (rest : string) :
  fixed (String "^" (String "C" rest))
  = String degree (String "C" (fixed rest)).
Proof. reflexivity. Qed.

Lemma fixed_other (c : ascii) (s : string) :
  startswith (String c s) marker = false →
  fixed (String c s) = String c (fixed s).
Proof. unfold fixed, replace. simpl. by intros ->. Qed.

Lemma startswith_marker (s : string) :
  startswith s marker = true → ∃ rest, s = String "^" (String "C" rest).
Proof.
  destruct s as [|c [|d rest]]; simpl; try done.
  - by case_decide.
  - repeat case_decide; try done. subst. by exists rest.
Qed.

(** Induction that follows the scan of [replace]. *)
Lemma scan_ind (P : string → Prop) :
  P "" →
  (∀ rest, P rest → P (String "^" (String "C" rest))) →
  (∀ c s, startswith (String c s) marker = false → P s → P (String c s)) →
  ∀ s, P s.
Proof.
  intros Hnil Hmark Hother s.
  assert (∀ (n : nat) s, (String.length s ≤ n)%nat → P s) as Hlen;
    [|by eapply Hlen].
  clear s. induction n as [|n IH]; intros [|c s] Hs; simpl in Hs;
    [done|lia|done|].
  destruct (startswith (String c s) marker) eqn:Hsw.
  - apply startswith_marker in Hsw as (rest & [= -> ->]).
    apply Hmark, IH. simpl in Hs. lia.
  - apply Hother; [done|]. apply IH. lia.
Qed.

Lemma fixed_length (s : string) : String.length (fixed s) = String.length s.
Proof.
  induction s as [|rest IH|c s Hsw IH] using scan_ind; [done|..].
  - rewrite fixed_marker. simpl. by rewrite IH.
  - rewrite fixed_other by done. simpl. by rewrite IH.
Qed.

Lemma fixed_get (s : string) (i : nat) :
  String.get i (fixed s)
  = if startswith (drop_str i s) marker then Some degree else String.get i s.
Proof.
  revert i. induction s as [|rest IH|c s Hsw IH] using scan_ind; intros i.
  - by destruct i.
  - rewrite fixed_marker. destruct i as [|[|i]]; [done..|]. apply IH.
  - rewrite fixed_other by done. destruct i as [|i]; [|apply IH].
    change (drop_str 0 (String c s)) with (String c s). by rewrite Hsw.
Qed.

Lemma fixed_head (s : string) :
  head_char (fixed s) = Some "C"%char → head_char s = Some "C"%char.
Proof.
  destruct s as [|c s]; [done|].
  destruct (startswith (String c s) marker) eqn:Hsw.
  - apply startswith_marker in Hsw as (rest & [= -> ->]). done.
  - by rewrite fixed_other.
Qed.

Lemma fixed_clean (s : string) : contains (fixed s) marker = false.
Proof.
  induction s as [|rest IH|c s Hsw IH] using scan_ind; [done|..].
  - rewrite fixed_marker. simpl. exact IH.
  - rewrite fixed_other by done.
    change (contains (String c (fixed s)) marker)
      with (startswith (String c (fixed s)) marker || contains (fixed s) marker).
    rewrite IH, orb_false_r.
    simpl in *. case_decide as Hc; [|done]. subst c.
    destruct (fixed s) as [|d r] eqn:Hf; [done|].
    case_decide as Hd; [|done]. subst d. exfalso.
    assert (head_char s = Some "C"%char) as Hs by (apply fixed_head; by rewrite Hf).
    destruct s as [|e s]; [done|]. injection Hs as ->.
    by rewrite decide_True in Hsw.
Qed.

Lemma fixed_unmarked (s : string) : contains s marker = false → fixed s = s.
Proof.
  induction s as [|rest IH|c s Hsw IH] using scan_ind; [done|..].
  - done.
  - intros Hc. rewrite fixed_other by done. f_equal. apply IH.
    change (contains (String c s) marker)
      with (startswith (String c s) marker || contains s marker) in Hc.
    by apply orb_false_iff in Hc as [_ ?].
Qed.

Lemma fix_degree_replace (units : string) : fix_degree units = fixed units.
Proof.
  unfold fix_degree. fold marker glyph.
  destruct (contains units marker) eqn:Hc; [done|].
  symmetry. by apply fixed_unmarked.
Qed.

End degree_fix.

(** C9. Degree-glyph post-processing: the fixed units have the length of
    the units; at every position where the marker "^C" starts they carry
    the degree sign (code point 176) in place of the caret, and at every
    other position the character of the units; no marker is left in the
    result; and units without the marker are returned as they are. *)
Theorem C9_degree_glyph (units : string) :
  String.length (fix_degree units) = String.length units
  ∧ (∀ i, String.get i (fix_degree units)
          = if startswith (drop_str i units) marker
            then Some degree else String.get i units)
  ∧ contains (fix_degree units) marker = false
  ∧ (if contains units marker then True else fix_degree units = units).
Proof.
  rewrite fix_degree_replace. split_and!.
  - apply fixed_length.
  - apply fixed_get.
  - apply fixed_clean.
  - destruct (contains units marker) eqn:Hc; [done|]. by apply fixed_unmarked.
Qed.

(** ** Port auto-selection *)

Section ports.

#[local] Instance device_le_trans : Transitive device_le.
Proof. intros p q r. unfold device_le. apply transitivity. Qed.

Lemma device_le_total (p q : port) : device_le p q ∨ device_le q p.
Proof. unfold device_le. apply total, _. Qed.

Lemma device_leb_le (p q : port) :
  String.leb (device p) (device q) = true ↔ device_le p q.
Proof. unfold device_le, String.le. by rewrite Is_true_true. Qed.

Lemma insert_port_perm (p : port) (l : list port) : insert_port p l ≡ₚ p :: l.
Proof.
  induction l as [|q l IH]; simpl; [done|].
  destruct (String.leb (device p) (device q)); [done|].
  rewrite IH. apply Permutation_swap.
Qed.

Lemma sorted_perm (l : list port) : sorted l ≡ₚ l.
Proof.
  induction l as [|p l IH]; simpl; [done|].
  by rewrite insert_port_perm, IH.
Qed.

Lemma insert_port_sorted (p : port) (l : list port) :
  Sorted device_le l → Sorted device_le (insert_port p l).
Proof.
  induction 1 as [|q l Hl IH Hhd]; simpl.
  - by repeat constructor.
  - destruct (String.leb (device p) (device q)) eqn:Hpq.
    + apply device_leb_le in Hpq. by repeat constructor.
    + assert (device_le q p) as Hqp.
      { destruct (device_le_total p q) as [H%device_leb_le|H]; [congruence|done]. }
      constructor; [done|].
      destruct Hhd as [|r l Hqr]; simpl; [by constructor|].
      destruct (String.leb (device p) (device r)); by constructor.
Qed.

Lemma sorted_sorted (l : list port) : Sorted device_le (sorted l).
Proof.
  induction l as [|p l IH]; simpl; [constructor|by apply insert_port_sorted].
Qed.

(** Stability: ports with the same device keep their order. *)
Lemma insert_port_stable (k : string) (p : port) (l : list port) :
  List.filter (λ q, bool_decide (device q = k)) (insert_port p l)
  = List.filter (λ q, bool_decide (device q = k)) (p :: l).
Proof.
  induction l as [|q l IH]; [done|]. simpl insert_port.
  destruct (String.leb (device p) (device q)) eqn:Hpq; [done|].
  assert (device p ≠ device q) as Hne.
  { intros Heq. rewrite Heq in Hpq.
    assert (device_le q q) as H%device_leb_le by (unfold device_le; done).
    congruence. }
  simpl in *. rewrite IH.
  repeat case_bool_decide; congruence.
Qed.

Lemma sorted_stable (k : string) (l : list port) :
  List.filter (λ q, bool_decide (device q = k)) (sorted l)
  = List.filter (λ q, bool_decide (device q = k)) l.
Proof.
  induction l as [|p l IH]; [done|]. simpl sorted.
  rewrite insert_port_stable. simpl. by rewrite IH.
Qed.

Lemma filter_sorted (f : port → bool) (l : list port) :
  Sorted device_le l → Sorted device_le (List.filter f l).
Proof.
  intros H%sorting.Sorted_StronglySorted; [|apply _].
  apply StronglySorted_Sorted.
  induction H as [|p l Hl IH Hall]; simpl; [constructor|].
  destruct (f p); [|done]. constructor; [done|].
  apply List.Forall_forall. intros q [Hq _]%filter_In.
  by eapply List.Forall_forall in Hall.
Qed.

Lemma fold_add_candidate (l acc : list port) :
  fold_left add_candidate l acc
  = rev (List.filter is_ftdi (List.filter is_serial_name l))
    ++ acc
    ++ List.filter (λ p, negb (is_ftdi p)) (List.filter is_serial_name l).
Proof.
  revert acc. induction l as [|p l IH]; intros acc; simpl.
  - by rewrite app_nil_r.
  - rewrite IH. unfold add_candidate.
    destruct (is_serial_name p); [|done]. simpl.
    destruct (is_ftdi p); simpl.
    + by rewrite <- !app_assoc.
    + by rewrite <- !app_assoc.
Qed.

Lemma candidates_of_split (comports : list port) :
  candidates_of comports
  = rev (List.filter is_ftdi (List.filter is_serial_name (sorted comports)))
    ++ List.filter (λ p, negb (is_ftdi p))
         (List.filter is_serial_name (sorted comports)).
Proof. unfold candidates_of. by rewrite fold_add_candidate. Qed.

Lemma filter_plain_all (l : list port) :
  List.filter is_ftdi l = [] → List.filter (λ p, negb (is_ftdi p)) l = l.
Proof.
  induction l as [|p l IH]; [done|]. simpl.
  destruct (is_ftdi p); [done|]. simpl. intros H. by rewrite IH.
Qed.

Lemma head_rev_app (l m : list port) :
  head (rev l ++ m) = match last l with Some p => Some p | None => head m end.
Proof.
  destruct l as [|x l _] using rev_ind; [done|].
  by rewrite rev_unit, last_snoc.
Qed.

End ports.

(** C1 as stated fails: on the ports A (FTDI), B (plain), C (FTDI), which
    are in device order and all pass the name filter, the candidate list
    is C, A, B and not the stable partition A, C, B; the selected device
    is that of C, not that of A. *)
Lemma C1_counterexample :
  sorted [port_A; port_B; port_C] = [port_A; port_B; port_C]
  ∧ List.filter is_serial_name [port_A; port_B; port_C]
    = [port_A; port_B; port_C]
  ∧ List.map is_ftdi [port_A; port_B; port_C] = [true; false; true]
  ∧ stable_partition [port_A; port_B; port_C] = [port_A; port_C; port_B]
  ∧ candidates_of [port_A; port_B; port_C] = [port_C; port_A; port_B]
  ∧ find_protek_port [port_A; port_B; port_C] = Some "/dev/ttyUSB2"
  ∧ ¬ (∀ comports,
         candidates_of comports
         = stable_partition (List.filter is_serial_name (sorted comports)))
  ∧ ¬ (∀ comports,
         find_protek_port comports
         = device <$> head (stable_partition
                              (List.filter is_serial_name (sorted comports)))).
Proof.
  split_and!; [vm_compute; reflexivity..| |].
  - intros H. specialize (H [port_A; port_B; port_C]).
    vm_compute in H. discriminate H.
  - intros H. specialize (H [port_A; port_B; port_C]).
    vm_compute in H. discriminate H.
Qed.

(** C1, amended. The enumeration is sorted by device (a stable sort:
    a permutation, ascending, ports of equal device in their order), and
    the ports whose name passes the filter are taken in that order; each
    FTDI candidate is put at the front and each other candidate at the
    end, so the candidate list is the FTDI candidates in descending device
    order followed by the others in ascending device order.  The first
    element is selected: the last FTDI candidate in device order when
    there is one, else the first candidate.  On A (FTDI), B, C (FTDI) the
    list is C, A, B and C is selected. *)
Theorem C1_port_selection (comports : list port) :
  let found := List.filter is_serial_name (sorted comports) in
  sorted comports ≡ₚ comports
  ∧ Sorted device_le (sorted comports)
  ∧ (∀ k, List.filter (λ q, bool_decide (device q = k)) (sorted comports)
          = List.filter (λ q, bool_decide (device q = k)) comports)
  ∧ Sorted device_le found
  ∧ candidates_of comports
    = rev (List.filter is_ftdi found)
      ++ List.filter (λ p, negb (is_ftdi p)) found
  ∧ find_protek_port comports = device <$> head (candidates_of comports)
  ∧ find_protek_port comports
    = device <$> match last (List.filter is_ftdi found) with
                 | Some p => Some p
                 | None => head found
                 end
  ∧ candidates_of [port_A; port_B; port_C] = [port_C; port_A; port_B]
  ∧ find_protek_port [port_A; port_B; port_C] = Some (device port_C).
Proof.
  intros found.
  assert (find_protek_port comports = device <$> head (candidates_of comports))
    as Hfind.
  { unfold find_protek_port. by destruct (candidates_of comports). }
  split_and!; [| | | | |exact Hfind| |by vm_compute..].
  - apply sorted_perm.
  - apply sorted_sorted.
  - intros k. apply sorted_stable.
  - apply filter_sorted, sorted_sorted.
  - apply candidates_of_split.
  - rewrite Hfind, candidates_of_split, head_rev_app. fold found.
    destruct (last (List.filter is_ftdi found)) eqn:Hlast; [done|].
    apply last_None in Hlast. by rewrite filter_plain_all.
Qed.

(** ** The matcher and the language of a sequence *)

Section matcher.

Import Re.

Lemma match_star (p : ascii → bool) (r : list item) (s : string) :
  match_items (Star p :: r) s
  = match s with
    | String c s' =>
        if p c then
          match match_items (Star p :: r) s' with
          | Some n => Some (S n)
          | None => match_items r s
          end
        else match_items r s
    | "" => match_items r s
    end.
Proof. by destruct s. Qed.

Lemma match_plus (p : ascii → bool) (r : list item) (s : string) :
  match_items (Plus p :: r) s
  = match s with
    | String c s' => if p c then succ (match_items (Star p :: r) s') else None
    | "" => None
    end.
Proof. by destruct s. Qed.

Lemma take_str_length (n : nat) (s : string) :
  n ≤ String.length s → String.length (take_str n s) = n.
Proof.
  revert s. induction n as [|n IH]; intros [|c s] Hn; simpl in *; try done.
  - lia.
  - rewrite IH; [done|lia].
Qed.

Lemma take_drop_str (n : nat) (s : string) : take_str n s +:+ drop_str n s = s.
Proof.
  revert s. induction n as [|n IH]; intros [|c s]; simpl; try done.
  by rewrite app_cons, IH.
Qed.

Lemma drop_str_length (n : nat) (s : string) :
  String.length (drop_str n s) = String.length s - n.
Proof. revert s. induction n as [|n IH]; intros [|c s]; simpl; try done. Qed.

Lemma drop_str_add (n m : nat) (s : string) :
  drop_str (n + m) s = drop_str m (drop_str n s).
Proof.
  revert s. induction n as [|n IH]; intros [|c s]; simpl; try done.
  by destruct m.
Qed.

Lemma startswith_app (t s : string) : startswith (t +:+ s) t = true.
Proof.
  induction t as [|c t IH]; [done|]. rewrite app_cons. simpl.
  by rewrite decide_True.
Qed.

Lemma startswith_split (s t : string) :
  startswith s t = true → s = t +:+ drop_str (String.length t) s.
Proof.
  revert s. induction t as [|c t IH]; intros s; [done|].
  destruct s as [|d s]; simpl; [done|].
  case_decide as Hcd; [|done]. subst d. intros H.
  rewrite app_cons. f_equal. by apply IH.
Qed.

Lemma startswith_take (s t : string) :
  startswith s t = true → take_str (String.length t) s = t.
Proof.
  revert s. induction t as [|c t IH]; intros s; [done|].
  destruct s as [|d s]; simpl; [done|].
  case_decide as Hcd; [|done]. subst d. intros H. f_equal. by apply IH.
Qed.

(** Soundness: what the matcher consumes is in the language. *)
Lemma match_items_sound (its : list item) (s : string) (n : nat) :
  match_items its s = Some n →
  n ≤ String.length s ∧ lang its (take_str n s).
Proof.
  revert s n. induction its as [|it r IHr]; intros s n.
  { intros [= <-]. split; [lia|constructor]. }
  destruct it as [p|p|p|p].
  - destruct s as [|c s]; simpl; [done|].
    destruct (p c) eqn:Hp; [|done].
    destruct (match_items r s) as [k|] eqn:Hk; [|done].
    intros [= <-]. destruct (IHr s k Hk) as [Hlen Hlang].
    split; [lia|]. simpl. by constructor.
  - assert (match_items r s = Some n →
            n ≤ String.length s ∧ lang (Opt p :: r) (take_str n s)) as Hskip.
    { intros H. destruct (IHr s n H) as [Hlen Hlang].
      split; [done|by constructor]. }
    destruct s as [|c s]; simpl; [exact Hskip|].
    destruct (p c) eqn:Hp; [|exact Hskip].
    destruct (match_items r s) as [k|] eqn:Hk; [|exact Hskip].
    intros [= <-]. destruct (IHr s k Hk) as [Hlen Hlang].
    split; [lia|]. simpl. by apply lang_opt_take.
  - revert n. induction s as [|c s IHs]; intros n; rewrite match_star.
    + intros H. destruct (IHr "" n H) as [Hlen Hlang].
      split; [done|by constructor].
    + assert (match_items r (String c s) = Some n →
              n ≤ String.length (String c s)
              ∧ lang (Star p :: r) (take_str n (String c s))) as Hstop.
      { intros H. destruct (IHr _ n H) as [Hlen Hlang].
        split; [done|by constructor]. }
      destruct (p c) eqn:Hp; [|exact Hstop].
      destruct (match_items (Star p :: r) s) as [k|] eqn:Hk; [|exact Hstop].
      intros [= <-]. destruct (IHs k eq_refl) as [Hlen Hlang].
      split; [simpl; lia|]. simpl. by apply lang_star_more.
  - rewrite match_plus. destruct s as [|c s]; [done|].
    destruct (p c) eqn:Hp; [|done].
    destruct (match_items (Star p :: r) s) as [k|] eqn:Hk; [|done].
    intros [= <-].
    assert (k ≤ String.length s ∧ lang (Star p :: r) (take_str k s))
      as [Hlen Hlang].
    { clear Hp c. revert k Hk.
      induction s as [|c s IHs]; intros k; rewrite match_star.
      - intros H. destruct (IHr "" k H) as [Hlen Hlang].
        split; [done|by constructor].
      - assert (match_items r (String c s) = Some k →
                k ≤ String.length (String c s)
                ∧ lang (Star p :: r) (take_str k (String c s))) as Hstop.
        { intros H. destruct (IHr _ k H) as [Hlen Hlang].
          split; [done|by constructor]. }
        destruct (p c) eqn:Hp; [|exact Hstop].
        destruct (match_items (Star p :: r) s) as [j|] eqn:Hj; [|exact Hstop].
        intros [= <-]. destruct (IHs j eq_refl) as [Hlen Hlang].
        split; [simpl; lia|]. simpl. by apply lang_star_more. }
    split; [simpl; lia|]. simpl. by apply lang_plus.
Qed.

(** Completeness: where a string of the language starts the text, the
    matcher succeeds. *)
Lemma match_items_complete (its : list item) (t : string) :
  lang its t → ∀ s, is_Some (match_items its (t +:+ s)).
Proof.
  induction 1 as [|p r c t Hp _ IH|p r t _ IH|p r c t Hp _ IH
                 |p r t _ IH|p r c t Hp _ IH|p r c t Hp _ IH]; intros s.
  - done.
  - rewrite app_cons. simpl. rewrite Hp.
    destruct (IH s) as [n ->]. done.
  - simpl. destruct (t +:+ s) as [|c x] eqn:Hx; [rewrite <- Hx; apply IH|].
    destruct (p c); [|rewrite <- Hx; apply IH].
    destruct (match_items r x); [done|]. rewrite <- Hx. apply IH.
  - rewrite app_cons. simpl. rewrite Hp.
    destruct (IH s) as [n ->]. done.
  - rewrite match_star.
    destruct (t +:+ s) as [|c x] eqn:Hx; [rewrite <- Hx; apply IH|].
    destruct (p c); [|rewrite <- Hx; apply IH].
    destruct (match_items (Star p :: r) x); [done|]. rewrite <- Hx. apply IH.
  - rewrite app_cons, match_star, Hp.
    destruct (IH s) as [n ->]. done.
  - rewrite app_cons, match_plus, Hp.
    destruct (IH s) as [n ->]. done.
Qed.

End matcher.

(** ** The numeric branch *)

Section numeric.

Import Re.

Lemma lang_nil_inv (t : string) : lang [] t → t = "".
Proof. by inversion 1. Qed.

Lemma lang_opt_inv (p : ascii → bool) (r : list item) (t : string) :
  lang (Opt p :: r) t →
  lang r t ∨ ∃ c t', t = String c t' ∧ p c = true ∧ lang r t'.
Proof.
  inversion 1; subst; [by left|]. right. eauto.
Qed.

Lemma lang_plus_inv (p : ascii → bool) (r : list item) (t : string) :
  lang (Plus p :: r) t →
  ∃ c t', t = String c t' ∧ p c = true ∧ lang (Star p :: r) t'.
Proof. inversion 1; subst. eauto. Qed.

Lemma lang_star_inv (p : ascii → bool) (r : list item) (t : string) :
  lang (Star p :: r) t →
  ∃ a b, t = a +:+ b ∧ all_chars p a = true ∧ lang r b.
Proof.
  intros H. remember (Star p :: r) as its eqn:Hits.
  induction H as [| | | |q r' t Ht _|q r' c t Hc Ht IH|]; try discriminate.
  - injection Hits as -> ->. by exists "", t.
  - injection Hits as -> ->. destruct (IH eq_refl) as (a & b & -> & Ha & Hb).
    exists (String c a), b. split_and!; [done| |done]. simpl. by rewrite Hc.
Qed.

Lemma lang_star_intro (p : ascii → bool) (r : list item) (a b : string) :
  all_chars p a = true → lang r b → lang (Star p :: r) (a +:+ b).
Proof.
  induction a as [|c a IH]; simpl; intros Ha Hb; [by constructor|].
  apply andb_true_iff in Ha as [Hc Ha]. rewrite app_cons.
  apply lang_star_more; [done|by apply IH].
Qed.

Lemma sign_chars (c : ascii) :
  one_of "-+" c = true ↔ c = "-"%char ∨ c = "+"%char.
Proof.
  destruct c as [[] [] [] [] [] [] [] []]; vm_compute;
    (split; [intros H; first [discriminate H|by left|by right]
            |intros [H|H]; first [discriminate H|reflexivity]]).
Qed.

Lemma dot_char (c : ascii) : ci "." c = true ↔ c = "."%char.
Proof.
  destruct c as [[] [] [] [] [] [] [] []]; vm_compute;
    (split; intros H; first [discriminate H|reflexivity]).
Qed.

Lemma suffix_chars (c : ascii) :
  one_of "kmuz" c = true
  ↔ String c "" ∈ ["k"; "m"; "u"; "z"; "K"; "M"; "U"; "Z"].
Proof.
  assert (one_of "kmuz" c
          = bool_decide (String c "" ∈ ["k"; "m"; "u"; "z"; "K"; "M"; "U"; "Z"]))
    as ->.
  { destruct c as [[] [] [] [] [] [] [] []]; vm_compute; reflexivity. }
  apply bool_decide_eq_true.
Qed.

(** The numeric tokens are the strings of the numeric branch. *)
Lemma numeric_token_lang (t : string) :
  numeric_token t ↔ lang numeric_branch t.
Proof.
  unfold numeric_token, numeric_branch. split.
  - intros (sign & int & dot & frac & suffix & -> & Hsign & Hint & Hdot
            & Hne & Hfrac & Hsuf).
    assert (lang [Opt (one_of "kmuz")] suffix) as Lsuf.
    { apply elem_of_cons in Hsuf as [->|Hsuf]; [by repeat constructor|].
      assert (∃ c, suffix = String c "" ∧ one_of "kmuz" c = true)
        as (c & -> & Hc).
      { repeat (apply elem_of_cons in Hsuf as [->|Hsuf];
                [by eexists|]). by apply elem_of_nil in Hsuf. }
      apply lang_opt_take; [done|constructor]. }
    assert (lang [Plus digit; Opt (one_of "kmuz")] (frac +:+ suffix)) as Lfrac.
    { destruct frac as [|c frac]; [done|]. simpl in Hfrac.
      apply andb_true_iff in Hfrac as [Hc Hfrac]. rewrite app_cons.
      apply lang_plus; [done|]. by apply lang_star_intro. }
    assert (lang [Opt (ci "."); Plus digit; Opt (one_of "kmuz")]
              (dot +:+ frac +:+ suffix)) as Ldot.
    { apply elem_of_cons in Hdot as [->|Hdot]; [by apply lang_opt_skip|].
      apply list_elem_of_singleton in Hdot as ->.
      by apply (lang_opt_take _ _ "."%char). }
    assert (lang [Star digit; Opt (ci "."); Plus digit; Opt (one_of "kmuz")]
              (int +:+ dot +:+ frac +:+ suffix)) as Lint
      by (by apply lang_star_intro).
    apply elem_of_cons in Hsign as [->|Hsign]; [by apply lang_opt_skip|].
    apply elem_of_cons in Hsign as [->|Hsign].
    { by apply (lang_opt_take _ _ "-"%char). }
    apply list_elem_of_singleton in Hsign as ->.
    by apply (lang_opt_take _ _ "+"%char).
  - intros H.
    assert (∃ sign t1, t = sign +:+ t1 ∧ sign ∈ [""; "-"; "+"]
            ∧ lang [Star digit; Opt (ci "."); Plus digit; Opt (one_of "kmuz")] t1)
      as (sign & t1 & -> & Hsign & H1).
    { apply lang_opt_inv in H as [H|(c & t' & -> & Hc & H)].
      - exists "", t. split_and!; [done|left|done].
      - apply sign_chars in Hc as [->| ->].
        + exists "-", t'. split_and!; [done|right; left|done].
        + exists "+", t'. split_and!; [done|do 2 right; left|done]. }
    apply lang_star_inv in H1 as (int & t2 & -> & Hint & H2).
    assert (∃ dot t3, t2 = dot +:+ t3 ∧ dot ∈ [""; "."]
            ∧ lang [Plus digit; Opt (one_of "kmuz")] t3)
      as (dot & t3 & -> & Hdot & H3).
    { apply lang_opt_inv in H2 as [H2|(c & t' & -> & Hc & H2)].
      - exists "", t2. split_and!; [done|left|done].
      - apply dot_char in Hc as ->.
        exists ".", t'. split_and!; [done|right; left|done]. }
    apply lang_plus_inv in H3 as (c & t4 & -> & Hc & H4).
    apply lang_star_inv in H4 as (more & t5 & -> & Hmore & H5).
    assert (t5 ∈ [""; "k"; "m"; "u"; "z"; "K"; "M"; "U"; "Z"]) as Hsuf.
    { apply lang_opt_inv in H5 as [->%lang_nil_inv|(d & t' & -> & Hd & ->%lang_nil_inv)].
      - left.
      - right. by apply suffix_chars. }
    exists sign, int, dot, (String c more), t5.
    split_and!; try done. simpl. by rewrite Hc.
Qed.

End numeric.

(** ** Search and tokens *)

Section tokens.

Import Re.

Lemma match_alts_some (pat : list (list item)) (s : string) (n : nat) :
  match_alts pat s = Some n → ∃ b, b ∈ pat ∧ match_items b s = Some n.
Proof.
  induction pat as [|b pat IH]; simpl; [done|].
  destruct (match_items b s) as [k|] eqn:Hb.
  - intros [= <-]. exists b. split; [left|done].
  - intros (b' & Hin & Hm)%IH. exists b'. split; [by right|done].
Qed.

Lemma match_alts_is_some (pat : list (list item)) (s : string) (b : list item) :
  b ∈ pat → is_Some (match_items b s) → is_Some (match_alts pat s).
Proof.
  induction pat as [|b' pat IH]; intros Hin Hsome.
  - by apply elem_of_nil in Hin.
  - simpl. destruct (match_items b' s) as [k|] eqn:Hb'; [done|].
    apply elem_of_cons in Hin as [->|Hin]; [|by apply IH].
    rewrite Hb' in Hsome. by destruct Hsome.
Qed.

Lemma search_from_some (pat : list (list item)) (s : string) (pos b e : nat) :
  search_from pat pos s = Some (b, e) →
  ∃ k n, b = pos + k ∧ e = b + n
         ∧ match_alts pat (drop_str k s) = Some n
         ∧ ∀ i, i < k → match_alts pat (drop_str i s) = None.
Proof.
  revert pos. induction s as [|c s IH]; intros pos; simpl.
  - destruct (match_alts pat "") as [n|] eqn:Hm; [|done].
    intros [= <- <-]. exists 0, n. split_and!; [lia|done|done|lia].
  - destruct (match_alts pat (String c s)) as [n|] eqn:Hm.
    + intros [= <- <-]. exists 0, n. split_and!; [lia|done|done|lia].
    + intros (k & n & -> & -> & Hk & Hbefore)%IH.
      exists (S k), n. split_and!; [lia|lia|done|].
      intros [|i] Hi; [done|]. apply Hbefore. lia.
Qed.

Lemma search_from_none (pat : list (list item)) (s : string) (pos : nat) :
  search_from pat pos s = None → ∀ i, match_alts pat (drop_str i s) = None.
Proof.
  revert pos. induction s as [|c s IH]; intros pos; simpl.
  - destruct (match_alts pat "") eqn:Hm; [done|]. intros _ i. by destruct i.
  - destruct (match_alts pat (String c s)) eqn:Hm; [done|].
    intros H [|i]; [done|]. by eapply IH.
Qed.

Lemma lower_length (s : string) : String.length (lower s) = String.length s.
Proof. induction s as [|c s IH]; [done|]. simpl. by rewrite IH. Qed.

Lemma lower_take (n : nat) (s : string) :
  lower (take_str n s) = take_str n (lower s).
Proof.
  revert s. induction n as [|n IH]; intros [|c s]; simpl; try done.
  by rewrite IH.
Qed.

Lemma lang_literal (w t : string) : lang (literal w) t ↔ lower t = lower w.
Proof.
  revert t. induction w as [|c w IH]; intros t; simpl.
  - split.
    + inversion 1. done.
    + destruct t; [constructor|done].
  - split.
    + inversion 1 as [|p r d t' Hd Ht'| | | | |]; subst. simpl.
      apply Ascii.eqb_eq in Hd. rewrite Hd. f_equal. by apply IH.
    + destruct t as [|d t']; [done|]. simpl. intros [= Hd Ht'].
      constructor; [by apply Ascii.eqb_eq|by apply IH].
Qed.

Lemma literal_token_branch (t : string) :
  literal_token t ↔ ∃ b, b ∈ literal_branches ∧ lang b t.
Proof.
  unfold literal_token, literal_branches. split.
  - intros (w & Hw & Ht). exists (literal w).
    split; [by apply list_elem_of_fmap_2|by apply lang_literal].
  - intros (b & (w & -> & Hw)%list_elem_of_fmap_1 & Ht).
    exists w. split; [done|by apply lang_literal].
Qed.

(** A token starts the text exactly when the pattern matches there. *)
Lemma token_matches (s : string) :
  (∃ t, (literal_token t ∨ numeric_token t) ∧ startswith s t = true)
  ↔ is_Some (match_alts reading_pattern s).
Proof.
  split.
  - intros (t & Ht & Hs). apply startswith_split in Hs. rewrite Hs.
    destruct Ht as [(b & Hb & Hlang)%literal_token_branch|Hnum].
    + apply (match_alts_is_some _ _ b); [by right|].
      by apply match_items_complete.
    + apply numeric_token_lang in Hnum.
      apply (match_alts_is_some _ _ numeric_branch); [by left|].
      by apply match_items_complete.
  - intros [n (b & Hb & Hm)%match_alts_some].
    apply match_items_sound in Hm as [Hlen Hlang].
    exists (take_str n s). split.
    + apply elem_of_cons in Hb as [->|Hb];
        [right; by apply numeric_token_lang|].
      left. apply literal_token_branch. by exists b.
    + rewrite <- (take_drop_str n s) at 1. apply startswith_app.
Qed.

Lemma token_at_matches (s : string) (i : nat) :
  token_at s i ↔ is_Some (match_alts reading_pattern (drop_str i s)).
Proof. apply token_matches. Qed.

End tokens.

(** ** Literal tokens against the numeric branch

    The first two characters, in lower case, tell the literal tokens apart
    and never start a numeric token. *)

Section precedence.

Import Re.

Lemma lower_char_inv (a k : ascii) :
  lower_char a = k → a = k ∨ a = ascii_of_N (code k - 32).
Proof.
  intros <-.
  destruct a as [[] [] [] [] [] [] [] []]; vm_compute; auto.
Qed.

Lemma literal_keys_differ (w1 w2 : string) :
  w1 ∈ literal_tokens → w2 ∈ literal_tokens → key w1 = key w2 → w1 = w2.
Proof.
  unfold literal_tokens. intros H1 H2.
  repeat (apply elem_of_cons in H1 as [->|H1]);
    try (by apply elem_of_nil in H1);
    repeat (apply elem_of_cons in H2 as [->|H2]);
    try (by apply elem_of_nil in H2);
    by vm_compute.
Qed.

Lemma literal_length (w : string) :
  w ∈ literal_tokens → 2 ≤ String.length w.
Proof.
  unfold literal_tokens. intros H.
  repeat (apply elem_of_cons in H as [->|H]); try (by apply elem_of_nil in H);
    simpl; lia.
Qed.

Lemma take_take_str (n m : nat) (s : string) :
  n ≤ m → take_str n (take_str m s) = take_str n s.
Proof.
  revert m s. induction n as [|n IH]; intros [|m] [|c s] Hnm; simpl;
    try done; try lia.
  f_equal. apply IH. lia.
Qed.

(** The key of a text that starts with a literal token. *)
Lemma key_of_literal_start (x t w : string) :
  w ∈ literal_tokens → lower t = lower w → startswith x t = true →
  key x = key w ∧ String.length t = String.length w.
Proof.
  intros Hw Ht Hx.
  assert (String.length t = String.length w) as Hlen.
  { by rewrite <- (lower_length t), Ht, lower_length. }
  split; [|done].
  pose proof (literal_length w Hw) as H2.
  unfold key. rewrite <- (take_take_str 2 (String.length t) x) by lia.
  rewrite (startswith_take x t Hx).
  by rewrite !lower_take, Ht.
Qed.

Lemma literal_key_cases (w : string) :
  w ∈ literal_tokens →
  key w ∈ [".o"; "-o"; "ol"; "op"; "sh"; "hi"; "lo"; "--"].
Proof.
  unfold literal_tokens. intros H.
  repeat (apply elem_of_cons in H as [->|H]); try (by apply elem_of_nil in H);
    apply (bool_decide_unpack _); vm_compute; exact I.
Qed.

(** The numeric branch fails on a text with the key of a literal token. *)
Lemma numeric_fails_on_key (w x : string) :
  w ∈ literal_tokens → key x = key w → match_items numeric_branch x = None.
Proof.
  intros Hw%literal_key_cases Hk. rewrite <- Hk in Hw. clear Hk w.
  destruct x as [|a [|b rest]].
  - exfalso. revert Hw. apply (bool_decide_eq_false_1 _). by vm_compute.
  - exfalso.
    repeat (apply elem_of_cons in Hw as [Hw|Hw]; [discriminate Hw|]).
    by apply elem_of_nil in Hw.
  - change (key (String a (String b rest)))
      with (String (lower_char a) (String (lower_char b) "")) in Hw.
    repeat (apply elem_of_cons in Hw as [Hw|Hw];
            [injection Hw as Ha Hb;
             apply lower_char_inv in Ha as [->| ->];
             apply lower_char_inv in Hb as [->| ->];
             vm_compute; reflexivity|]).
    by apply elem_of_nil in Hw.
Qed.

(** Where a literal token starts the text, the pattern matches exactly
    that token. *)
Lemma literal_takes_precedence (x t : string) (n : nat) :
  match_alts reading_pattern x = Some n →
  literal_token t → startswith x t = true →
  take_str n x = t.
Proof.
  intros Hm (w & Hw & Ht) Hx.
  destruct (key_of_literal_start x t w Hw Ht Hx) as [Hkey Hlen].
  change (match_alts reading_pattern x)
    with (match match_items numeric_branch x with
          | Some k => Some k
          | None => match_alts literal_branches x
          end) in Hm.
  rewrite (numeric_fails_on_key w x Hw Hkey) in Hm.
  apply match_alts_some in Hm as (b & Hb & Hm).
  apply list_elem_of_fmap_1 in Hb as (w1 & -> & Hw1).
  apply match_items_sound in Hm as [Hn Hlang].
  apply lang_literal in Hlang.
  assert (n = String.length w1) as Hn1.
  { by rewrite <- (lower_length w1), <- Hlang, lower_length, take_str_length. }
  pose proof (literal_length w1 Hw1) as H2.
  assert (key x = key w1) as Hkey1.
  { unfold key. rewrite <- (take_take_str 2 n x) by lia.
    by rewrite (lower_take 2 (take_str n x)), Hlang, <- lower_take. }
  assert (w1 = w) as -> by (apply literal_keys_differ; congruence).
  rewrite Hn1, <- Hlen. by apply startswith_take.
Qed.

End precedence.

(** ** Reading and units *)

Section extraction.

Import Re.

Lemma search_some (rest : string) (b e : nat) :
  search reading_pattern rest = Some (b, e) →
  ∃ n, e = b + n
       ∧ match_alts reading_pattern (drop_str b rest) = Some n
       ∧ ∀ i, i < b → ¬ token_at rest i.
Proof.
  intros (k & n & -> & -> & Hm & Hbefore)%search_from_some.
  exists n. split_and!; [done|done|].
  intros i Hi [m Htok]%token_at_matches.
  rewrite Hbefore in Htok by lia. done.
Qed.

Lemma search_none (rest : string) :
  search reading_pattern rest = None ↔ ∀ i, ¬ token_at rest i.
Proof.
  split.
  - intros Hnone i [m Htok]%token_at_matches.
    by rewrite (search_from_none _ _ _ Hnone i) in Htok.
  - intros Hno. destruct (search reading_pattern rest) as [[b e]|] eqn:Hs;
      [|done].
    apply search_some in Hs as (n & _ & Hm & _).
    destruct (Hno b). apply token_at_matches. by rewrite Hm.
Qed.

Lemma matched_is_token (x : string) (n : nat) :
  match_alts reading_pattern x = Some n →
  n ≤ String.length x
  ∧ (literal_token (take_str n x) ∨ numeric_token (take_str n x)).
Proof.
  intros (b & Hb & Hm)%match_alts_some.
  apply match_items_sound in Hm as [Hlen Hlang]. split; [done|].
  apply elem_of_cons in Hb as [->|Hb]; [right; by apply numeric_token_lang|].
  left. apply literal_token_branch. by exists b.
Qed.

Lemma extract_none (rest : string) :
  (∀ i, ¬ token_at rest i) → extract rest = ("", strip rest).
Proof. intros H%search_none. unfold extract. by rewrite H. Qed.

End extraction.

(** C2. Reading and units: when the pattern is found in the payload, the
    match starts at the leftmost position at which a literal or a numeric
    token starts; the reading is the matched text as it stands in the
    payload, and it is a literal or a numeric token; a literal token that
    starts at that position is the reading (the numeric form never takes
    its place); what stands before the match is dropped, and what follows
    it, stripped, is the units.  When the pattern is not found there is no
    token at any position.  The three payloads of the specification give
    the stated readings and units, and the row built from the frame text
    "D 007.50 V" keeps the reading 007.50 with its leading zeros. *)
Theorem C2_reading_units_extraction (rest : string) :
  match Re.search reading_pattern rest with
  | Some (b, e) =>
      let reading := take_str (e - b) (drop_str b rest) in
      let units := strip (drop_str e rest) in
      extract rest = (reading, units)
      ∧ rest = take_str b rest +:+ reading +:+ drop_str e rest
      ∧ (literal_token reading ∨ numeric_token reading)
      ∧ (∀ i, i < b → ¬ token_at rest i)
      ∧ (∀ t, literal_token t → startswith (drop_str b rest) t = true →
              reading = t)
  | None => extract rest = ("", strip rest) ∧ ∀ i, ¬ token_at rest i
  end
  ∧ extract "  OL  mV" = ("OL", "mV")
  ∧ extract "-1.234k Ohm" = ("-1.234k", "Ohm")
  ∧ extract "007.50 V" = ("007.50", "V")
  ∧ record_of (Tick [] "2026-01-01" "12:00:00.123456") "D" " 007.50 V"
    = ["2026-01-01"; "12:00:00.123"; "DC"; "007.50"; "V"].
Proof.
  split; [|by vm_compute].
  destruct (Re.search reading_pattern rest) as [[b e]|] eqn:Hs.
  - destruct (search_some rest b e Hs) as (n & -> & Hm & Hbefore).
    replace (b + n - b) with n by lia.
    destruct (matched_is_token _ n Hm) as [Hlen Htok].
    split_and!.
    + unfold extract. rewrite Hs. by replace (b + n - b) with n by lia.
    + rewrite drop_str_add, take_drop_str. by rewrite take_drop_str.
    + exact Htok.
    + exact Hbefore.
    + intros t Ht Hstart. by eapply literal_takes_precedence.
  - split; [|by apply search_none].
    unfold extract. by rewrite Hs.
Qed.

(** C8 as stated fails: the frame "T ^C" has the payload "^C", in which no
    token starts at any position, and the row that is written carries the
    degree sign and C as units, not the payload. *)
Lemma C8_counterexample :
  let t := Tick [x54; x20; x5e; x43; x0d] "2026-01-01" "12:00:00.000000" in
  frame_text (line t) = Some "T ^C"
  ∧ strip " ^C" = "^C"
  ∧ (∀ i, ¬ token_at "^C" i)
  ∧ session [] [t]
    = [header; ["2026-01-01"; "12:00:00.000"; "TEMP"; ""; glyph]]
  ∧ glyph ≠ "^C"
  ∧ ¬ (∀ (t : tick) (c : ascii) (tail : string),
         c ∈ first_byte_chars →
         (∀ i, ¬ token_at (strip tail) i) →
         ∃ d tm m, record_of t c tail = [d; tm; m; ""; strip tail]).
Proof.
  intros t.
  assert (∀ i, ¬ token_at "^C" i) as Hno by (by apply search_none).
  split_and!; [by vm_compute|by vm_compute|exact Hno|by vm_compute|done|].
  intros H.
  destruct (H t "T"%char " ^C") as (d & tm & m & Hrow).
  - apply (bool_decide_unpack _). vm_compute. exact I.
  - exact Hno.
  - vm_compute in Hrow. discriminate Hrow.
Qed.

(** C8, amended. When no literal or numeric token starts at any position
    of the payload, the reading is empty and the extracted units are the
    whole trimmed payload; the row that is written has the empty reading
    and, as units, the trimmed payload after the degree-sign fix (the
    trimmed payload itself when it holds no "^C"); the row is written and
    flushed in that cycle. *)
Theorem C8_no_match_fallback
    (w : world) (t : tick) (c : ascii) (tail : string) :
  frame_text (line t) = Some (String c tail) →
  c ∈ first_byte_chars →
  (∀ i, ¬ token_at (strip tail) i) →
  let r := [date_str t; drop_last3 (time_us t); mode_of c; "";
            fix_degree (strip tail)] in
  extract (strip tail) = ("", strip tail)
  ∧ accepted t = Some r
  ∧ disk (cycle w t) = disk w ++ buffer w ++ [r]
  ∧ buffer (cycle w t) = []
  ∧ (if contains (strip tail) marker then True
     else fix_degree (strip tail) = strip tail).
Proof.
  intros Hframe Hc Hno r.
  assert (extract (strip tail) = ("", strip tail)) as Hex.
  { rewrite (extract_none _ Hno). by rewrite strip_strip. }
  assert (accepted t = Some r) as Hacc.
  { unfold accepted. rewrite Hframe. simpl.
    rewrite bool_decide_eq_true_2 by done.
    unfold record_of. by rewrite Hex. }
  destruct (cycle_accepts w t r Hacc) as (data & _ & ->).
  split_and!; [done..|].
  unfold fix_degree. fold marker. by destruct (contains (strip tail) marker).
Qed.

Lemma C8_no_match_fallback_witness :
  let t := Tick [x52; x20; x61; x62; x63; x0d] "2026-01-01" "12:00:00.000000" in
  let w := World [header] [] [] in
  disk (cycle w t)
  = [header; ["2026-01-01"; "12:00:00.000"; "RES"; ""; "abc"]].
Proof.
  intros t w.
  assert (frame_text (line t) = Some (String "R" " abc")) as Hframe
    by reflexivity.
  assert ("R"%char ∈ first_byte_chars) as Hc.
  { apply (bool_decide_unpack _). vm_compute. exact I. }
  assert (∀ i, ¬ token_at (strip " abc") i) as Hno.
  { apply search_none. vm_compute. reflexivity. }
  destruct (C8_no_match_fallback w t "R" " abc" Hframe Hc Hno)
    as (_ & _ & Hdisk & _).
  rewrite Hdisk. vm_compute. reflexivity.
Defined.

(** * Further properties *)

(** ** Port selection *)

Section selection.

Lemma filter_perm (f : port → bool) (l l' : list port) :
  l ≡ₚ l' → List.filter f l ≡ₚ List.filter f l'.
Proof.
  induction 1 as [|x l l' _ IH|x y l|l l' l'' _ IH1 _ IH2]; simpl.
  - done.
  - destruct (f x); [by constructor|done].
  - destruct (f x), (f y); try done. apply perm_swap.
  - by etrans.
Qed.

Lemma filter_split_perm (f : port → bool) (l : list port) :
  List.filter f l ++ List.filter (λ p, negb (f p)) l ≡ₚ l.
Proof.
  induction l as [|x l IH]; [done|]. simpl.
  destruct (f x); simpl; [by constructor|].
  rewrite <- Permutation_middle. by constructor.
Qed.

Lemma candidates_perm (comports : list port) :
  candidates_of comports ≡ₚ List.filter is_serial_name comports.
Proof.
  rewrite candidates_of_split, <- Permutation_rev, filter_split_perm.
  apply filter_perm, sorted_perm.
Qed.

Lemma elem_of_filter_bool (f : port → bool) (l : list port) (p : port) :
  p ∈ List.filter f l ↔ p ∈ l ∧ f p = true.
Proof. rewrite !list_elem_of_In. apply filter_In. Qed.

Lemma find_protek_port_head (comports : list port) :
  find_protek_port comports = device <$> head (candidates_of comports).
Proof. unfold find_protek_port. by destruct (candidates_of comports). Qed.

Lemma map_inj_on_NoDup (l : list port) (x y : port) :
  NoDup (map device l) → x ∈ l → y ∈ l → device x = device y → x = y.
Proof.
  induction l as [|z l IH]; simpl; intros Hnd Hx Hy Heq.
  - by apply elem_of_nil in Hx.
  - apply NoDup_cons in Hnd as [Hz Hnd].
    apply elem_of_cons in Hx as [->|Hx]; apply elem_of_cons in Hy as [->|Hy].
    + done.
    + destruct Hz. rewrite Heq. by apply (list_elem_of_fmap_2 device).
    + destruct Hz. rewrite <- Heq. by apply (list_elem_of_fmap_2 device).
    + by apply IH.
Qed.

End selection.

(** X1. Auto-detection fails exactly when no enumerated port has a device
    name that passes the name filter. *)
Theorem find_protek_port_none_iff (comports : list port) :
  find_protek_port comports = None
  ↔ ∀ p, p ∈ comports → is_serial_name p = false.
Proof.
  rewrite find_protek_port_head. split.
  - intros Hnone p Hp. destruct (is_serial_name p) eqn:Hname; [|done].
    assert (p ∈ candidates_of comports) as Hin.
    { rewrite candidates_perm. by apply elem_of_filter_bool. }
    destruct (candidates_of comports); [by apply elem_of_nil in Hin|done].
  - intros Hall. destruct (candidates_of comports) as [|p l] eqn:Hc; [done|].
    assert (p ∈ List.filter is_serial_name comports) as Hin.
    { rewrite <- candidates_perm, Hc. left. }
    apply elem_of_filter_bool in Hin as [Hp Hname].
    by rewrite (Hall p Hp) in Hname.
Qed.

(** X2. The device that auto-detection returns belongs to an enumerated
    port whose name passes the filter; and that port names the FTDI
    chipset whenever some enumerated port that passes the filter does. *)
Theorem find_protek_port_sound (comports : list port) (d : string) :
  find_protek_port comports = Some d →
  ∃ p, p ∈ comports ∧ device p = d ∧ is_serial_name p = true
       ∧ (is_ftdi p = true
          ∨ ∀ q, q ∈ comports → is_serial_name q = true → is_ftdi q = false).
Proof.
  rewrite find_protek_port_head.
  destruct (candidates_of comports) as [|p l] eqn:Hc; [done|].
  intros [= <-]. exists p.
  assert (p ∈ List.filter is_serial_name comports) as Hin.
  { rewrite <- candidates_perm, Hc. left. }
  apply elem_of_filter_bool in Hin as [Hp Hname].
  split_and!; [done..|].
  rewrite candidates_of_split in Hc.
  set (found := List.filter is_serial_name (sorted comports)) in *.
  destruct (List.filter is_ftdi found) as [|x F] eqn:HF using rev_ind.
  - right. intros q Hq Hqname.
    destruct (is_ftdi q) eqn:Hqf; [|done].
    assert (q ∈ List.filter is_ftdi found) as Hqin.
    { apply elem_of_filter_bool. split; [|done].
      apply elem_of_filter_bool. split; [|done]. by rewrite sorted_perm. }
    rewrite HF in Hqin. by apply elem_of_nil in Hqin.
  - left. rewrite rev_unit in Hc. injection Hc as -> _.
    assert (p ∈ List.filter is_ftdi found) as Hpin.
    { rewrite HF. apply elem_of_app. right. left. }
    by apply elem_of_filter_bool in Hpin as [_ ?].
Qed.

Lemma find_protek_port_sound_witness :
  ∃ p, p ∈ [port_B; port_A] ∧ device p = "/dev/ttyUSB0"
       ∧ is_serial_name p = true
       ∧ (is_ftdi p = true
          ∨ ∀ q, q ∈ [port_B; port_A] → is_serial_name q = true →
                 is_ftdi q = false).
Proof.
  apply (find_protek_port_sound [port_B; port_A] "/dev/ttyUSB0").
  vm_compute. reflexivity.
Defined.

(** X3. With distinct device names, the device that auto-detection
    returns does not depend on the order of the enumeration. *)
Theorem find_protek_port_order_independent (l l' : list port) :
  NoDup (map device l) → l ≡ₚ l' →
  find_protek_port l = find_protek_port l'.
Proof.
  intros Hnd Hperm.
  assert (sorted l = sorted l') as Hsorted.
  { pose proof device_le_trans as Htrans.
    apply (Sorted_unique_strong device_le).
    - intros x y Hx Hy Hxy Hyx.
      rewrite sorted_perm in Hx. rewrite sorted_perm, <- Hperm in Hy.
      apply (map_inj_on_NoDup l); [done..|].
      unfold device_le in *. by apply (anti_symm String.le).
    - apply sorted_sorted.
    - apply sorted_sorted.
    - by rewrite !sorted_perm. }
  unfold find_protek_port, candidates_of. by rewrite Hsorted.
Qed.

Lemma find_protek_port_order_independent_witness :
  find_protek_port [port_A; port_B; port_C]
  = find_protek_port [port_C; port_A; port_B].
Proof.
  apply find_protek_port_order_independent.
  - apply (bool_decide_unpack _). vm_compute. exact I.
  - change [port_C; port_A; port_B] with ([port_C] ++ [port_A; port_B]).
    change [port_A; port_B; port_C] with ([port_A; port_B] ++ [port_C]).
    apply Permutation_app_comm.
Defined.

Section opened_port.

Lemma find_some_enumerated (comports : list port) (d : string) :
  find_protek_port comports = Some d → d ∈ map device comports.
Proof.
  rewrite find_protek_port_head.
  destruct (candidates_of comports) as [|p l] eqn:Hc; [done|].
  intros [= <-].
  assert (p ∈ List.filter is_serial_name comports) as Hin.
  { rewrite <- candidates_perm, Hc. left. }
  apply elem_of_filter_bool in Hin as [Hp _].
  by apply (list_elem_of_fmap_2 device).
Qed.

Lemma find_none_all_rejected (comports : list port) :
  find_protek_port comports = None →
  ∀ p, p ∈ comports → is_serial_name p = false.
Proof.
  rewrite find_protek_port_head. intros Hnone p Hp.
  destruct (is_serial_name p) eqn:Hname; [|done].
  assert (p ∈ candidates_of comports) as Hin.
  { rewrite candidates_perm. by apply elem_of_filter_bool. }
  destruct (candidates_of comports); [by apply elem_of_nil in Hin|done].
Qed.

End opened_port.

(** X4. Whatever the path, manual override or auto-detection, the port
    that is opened is the device of an enumerated port; and a non-empty
    override is never replaced by another port. *)
Theorem choose_port_enumerated
    (override : option string) (comports : list port) (d : string) :
  choose_port override comports = Opened d →
  d ∈ map device comports
  ∧ ∀ o, override = Some o → o ≠ "" → d = o.
Proof.
  assert (auto_detect comports = Opened d → d ∈ map device comports) as Hauto.
  { unfold auto_detect.
    destruct (find_protek_port comports) as [d'|] eqn:Hf; [|done].
    intros [= <-]. by apply find_some_enumerated. }
  unfold choose_port. destruct override as [o|].
  - destruct (String.eqb o "") eqn:Ho.
    + apply String.eqb_eq in Ho as ->. intros H.
      split; [by apply Hauto|]. by intros o [= <-].
    + case_bool_decide as Hin; [|done]. intros [= <-].
      split; [done|]. by intros o' [= <-].
  - intros H. split; [by apply Hauto|done].
Qed.

Lemma choose_port_enumerated_witness :
  "/dev/ttyS0" ∈ map device [Port "/dev/ttyS0" None None; port_A]
  ∧ ∀ o, Some "/dev/ttyS0" = Some o → o ≠ "" → "/dev/ttyS0" = o.
Proof.
  apply (choose_port_enumerated (Some "/dev/ttyS0")).
  vm_compute. reflexivity.
Defined.

(** X5. When no port is opened for want of a candidate, no override was
    given (or an empty one), no enumerated port passes the name filter,
    and the ports that are listed are all the enumerated ports, in
    ascending device order. *)
Theorem choose_port_no_candidate
    (override : option string) (comports ports : list port) :
  choose_port override comports = NoCandidate ports →
  (override = None ∨ override = Some "")
  ∧ (∀ p, p ∈ comports → is_serial_name p = false)
  ∧ ports ≡ₚ comports
  ∧ Sorted device_le ports.
Proof.
  assert (auto_detect comports = NoCandidate ports →
          (∀ p, p ∈ comports → is_serial_name p = false)
          ∧ ports ≡ₚ comports ∧ Sorted device_le ports) as Hauto.
  { unfold auto_detect.
    destruct (find_protek_port comports) as [d'|] eqn:Hf; [done|].
    intros [= <-]. split_and!.
    - by apply find_none_all_rejected.
    - apply sorted_perm.
    - apply sorted_sorted. }
  unfold choose_port. destruct override as [o|].
  - destruct (String.eqb o "") eqn:Ho.
    + apply String.eqb_eq in Ho as ->. intros H%Hauto. split; [by right|done].
    + by case_bool_decide.
  - intros H%Hauto. split; [by left|done].
Qed.

Lemma choose_port_no_candidate_witness :
  (@None string = None ∨ None = Some "")
  ∧ (∀ p, p ∈ [Port "/dev/ttyS1" None None; Port "/dev/ttyS0" None None] →
          is_serial_name p = false)
  ∧ [Port "/dev/ttyS0" None None; Port "/dev/ttyS1" None None]
    ≡ₚ [Port "/dev/ttyS1" None None; Port "/dev/ttyS0" None None]
  ∧ Sorted device_le [Port "/dev/ttyS0" None None; Port "/dev/ttyS1" None None].
Proof.
  apply (choose_port_no_candidate None). vm_compute. reflexivity.
Defined.

(** ** The frame reader *)

Section frames.

Lemma code_ascii_of_byte (b : byte) : code (ascii_of_byte b) = Byte.to_N b.
Proof. by destruct b. Qed.

Lemma to_N_byte_of_ascii (c : ascii) : Byte.to_N (byte_of_ascii c) = code c.
Proof. by rewrite <- code_ascii_of_byte, ascii_of_byte_of_ascii. Qed.

Lemma to_N_carriage_return (b : byte) : Byte.to_N b = 13%N ↔ b = x0d.
Proof.
  split; [|by intros ->].
  intros H. apply (f_equal Byte.of_N) in H. rewrite Byte.of_to_N in H.
  by injection H.
Qed.

Lemma all_chars_app (p : ascii → bool) (a b : string) :
  all_chars p (a +:+ b) = all_chars p a && all_chars p b.
Proof.
  induction a as [|c a IH]; [done|]. rewrite app_cons. simpl.
  by rewrite IH, andb_assoc.
Qed.

Lemma all_chars_strip (p : ascii → bool) (s : string) :
  all_chars p s = true → all_chars p (strip s) = true.
Proof.
  destruct (strip_split s) as (pre & post & Hs & _ & _).
  rewrite Hs at 1. rewrite !all_chars_app.
  intros [_ H]%andb_true_iff. by apply andb_true_iff in H as [H _].
Qed.

Lemma decode_is_ascii (bs : list byte) :
  all_chars is_ascii (decode_ascii_ignore bs) = true.
Proof.
  induction bs as [|b bs IH]; [done|]. simpl.
  destruct (Byte.to_N b <? 128)%N eqn:Hb; [|done]. simpl.
  unfold is_ascii at 1. by rewrite code_ascii_of_byte, Hb.
Qed.

Lemma decode_bytes_of (s : string) :
  all_chars is_ascii s = true → decode_ascii_ignore (bytes_of s) = s.
Proof.
  unfold bytes_of. induction s as [|c s IH]; [done|]. simpl.
  intros [Hc Hs]%andb_true_iff.
  rewrite to_N_byte_of_ascii. unfold is_ascii in Hc. rewrite Hc.
  by rewrite ascii_of_byte_of_ascii, IH.
Qed.

End frames.

(** X6. The reader reports "no data" exactly when the bytes received do
    not end with the carriage return: nothing received, or a line cut
    short by the timeout. *)
Theorem frame_text_none_iff (line : list byte) :
  frame_text line = None ↔ ∀ frame, line ≠ frame ++ [x0d].
Proof.
  unfold frame_text. split.
  - intros H frame ->. rewrite last_snoc in H. by rewrite decide_True in H.
  - intros H. destruct (last line) as [b|] eqn:Hlast; [|done].
    case_decide as Hb; [|done]. apply to_N_carriage_return in Hb as ->.
    apply last_Some in Hlast as [frame ->]. by destruct (H frame).
Qed.

(** X7. A text that the reader returns holds ASCII code points only and
    has no whitespace at either end. *)
Theorem frame_text_ascii_trimmed (line : list byte) (data : string) :
  frame_text line = Some data →
  all_chars is_ascii data = true ∧ trimmed data.
Proof.
  unfold frame_text. destruct (last line) as [b|]; [|done].
  case_decide; [|done]. intros [= <-].
  split; [apply all_chars_strip, decode_is_ascii|apply strip_trimmed].
Qed.

Lemma frame_text_ascii_trimmed_witness :
  all_chars is_ascii "D 1" = true ∧ trimmed "D 1".
Proof.
  apply (frame_text_ascii_trimmed [x20; x44; x20; x31; xe9; x09; x0d]).
  reflexivity.
Defined.

(** X8. Round trip: an ASCII text without whitespace at its ends, sent
    as its bytes followed by the carriage return, is read back as it is. *)
Theorem frame_text_round_trip (s : string) :
  all_chars is_ascii s = true → trimmed s →
  frame_text (bytes_of s ++ [x0d]) = Some s.
Proof.
  intros Hascii Htrim.
  rewrite frame_text_terminated, (decode_bytes_of s Hascii).
  by rewrite (strip_fixed s Htrim).
Qed.

Lemma frame_text_round_trip_witness :
  frame_text (bytes_of "D-01.25 mV" ++ [x0d]) = Some "D-01.25 mV".
Proof.
  apply frame_text_round_trip; [reflexivity|].
  split; reflexivity.
Defined.

(** ** The loop and the log *)

Section log.

Lemma run_cons (w : world) (t : tick) (ticks : list tick) :
  run w (t :: ticks) = run (cycle w t) ticks.
Proof. reflexivity. Qed.

Lemma accepted_rows_cons (t : tick) (ticks : list tick) :
  accepted_rows (t :: ticks) = option_list (accepted t) ++ accepted_rows ticks.
Proof. unfold accepted_rows. simpl. by destruct (accepted t). Qed.

(** The two parts of the log after a run. *)
Lemma run_store (ticks : list tick) (w : world) :
  match accepted_rows ticks with
  | [] => disk (run w ticks) = disk w ∧ buffer (run w ticks) = buffer w
  | rows =>
      disk (run w ticks) = disk w ++ buffer w ++ rows
      ∧ buffer (run w ticks) = []
  end.
Proof.
  revert w. induction ticks as [|t ticks IH]; intros w; [done|].
  rewrite run_cons, accepted_rows_cons. specialize (IH (cycle w t)).
  destruct (accepted t) as [r|] eqn:Hacc; simpl.
  - destruct (cycle_accepts w t r Hacc) as (data & _ & Hcycle).
    assert (disk (cycle w t) = disk w ++ buffer w ++ [r]) as Hd
      by (by rewrite Hcycle).
    assert (buffer (cycle w t) = []) as Hb by (by rewrite Hcycle).
    destruct (accepted_rows ticks) as [|r' rows]; destruct IH as [-> ->];
      rewrite Hd, ?Hb; [done|].
    split; [|done]. by rewrite <- !app_assoc.
  - assert (disk (cycle w t) = disk w ∧ buffer (cycle w t) = buffer w)
      as [Hd Hb] by (by rewrite (cycle_rejects w t Hacc)).
    by rewrite Hd, Hb in IH.
Qed.

Lemma accepted_columns (t : tick) (r : row) :
  accepted t = Some r → length r = 5.
Proof.
  unfold accepted, parse.
  destruct (frame_text (line t)) as [[|c tail]|]; [done| |done].
  case_bool_decide; [|done]. intros [= <-].
  unfold record_of. by destruct (extract (strip tail)).
Qed.

Lemma accepted_rows_columns (ticks : list tick) :
  Forall (λ r, length r = 5) (accepted_rows ticks).
Proof.
  apply list.Forall_forall. intros r (t & _ & Ht)%list_elem_of_omap.
  by eapply accepted_columns.
Qed.

Lemma sessions_cons (content : list row) (ticks : list tick)
    (runs : list (list tick)) :
  sessions content (ticks :: runs) = sessions (session content ticks) runs.
Proof. reflexivity. Qed.

Lemma sessions_from_empty (runs : list (list tick)) :
  sessions [] runs = [] ∨ well_headed (sessions [] runs).
Proof.
  destruct runs as [|ticks runs]; [by left|]. right.
  rewrite sessions_cons. apply sessions_keep, session_from_empty.
Qed.

Lemma count_events_app (f : event → bool) (tr1 tr2 : list event) :
  count_events f (tr1 ++ tr2) = count_events f tr1 + count_events f tr2.
Proof. unfold count_events. by rewrite List.filter_app, length_app. Qed.

End log.

(** X9. Every row of a log that the script has grown from the empty log,
    over any number of runs, has exactly five columns. *)
Theorem log_rows_have_five_columns (runs : list (list tick)) :
  Forall (λ r, length r = 5) (sessions [] runs).
Proof.
  assert (∀ content, Forall (λ r : row, length r = 5) content →
            Forall (λ r, length r = 5) (sessions content runs)) as Hgen.
  { induction runs as [|ticks runs IH]; intros content Hc; [done|].
    rewrite sessions_cons. apply IH. rewrite session_content.
    apply Forall_app. split; [done|]. apply Forall_app. split.
    - destruct (decide (content = [])); [|done]. by repeat constructor.
    - apply accepted_rows_columns. }
  by apply Hgen.
Qed.

(** X10. In any run of the loop every cycle sends exactly one trigger,
    performs one read and one sleep; rows are written and the log is
    flushed once for each accepted frame, and not otherwise. *)
Theorem run_event_counts (w : world) (ticks : list tick) :
  ∃ tr, trace (run w ticks) = trace w ++ tr
        ∧ count_events is_trigger tr = length ticks
        ∧ count_events is_read tr = length ticks
        ∧ count_events is_sleep tr = length ticks
        ∧ count_events is_write tr = length (accepted_rows ticks)
        ∧ count_events is_flush tr = length (accepted_rows ticks).
Proof.
  revert w. induction ticks as [|t ticks IH]; intros w.
  - exists []. by rewrite app_nil_r.
  - rewrite run_cons, accepted_rows_cons.
    destruct (IH (cycle w t)) as (tr & -> & Ht & Hr & Hs & Hw & Hf).
    destruct (accepted t) as [r|] eqn:Hacc.
    + destruct (cycle_accepts w t r Hacc) as (data & _ & ->). simpl trace.
      eexists. rewrite <- app_assoc. split; [reflexivity|].
      rewrite !count_events_app, Ht, Hr, Hs, Hw, Hf. by simpl.
    + rewrite (cycle_rejects w t Hacc). simpl trace.
      eexists. rewrite <- app_assoc. split; [reflexivity|].
      rewrite !count_events_app, Ht, Hr, Hs, Hw, Hf. by simpl.
Qed.

(** X11. The flushed part of the log only grows, and only with an
    accepted frame: a run without an accepted frame leaves the flushed
    and the buffered rows as they were; otherwise the flushed part is
    the former one, then the rows that were buffered, then the accepted
    rows in their order, and nothing stays buffered. *)
Theorem run_flushed_rows (w : world) (ticks : list tick) :
  match accepted_rows ticks with
  | [] => disk (run w ticks) = disk w ∧ buffer (run w ticks) = buffer w
  | rows =>
      disk (run w ticks) = disk w ++ buffer w ++ rows
      ∧ buffer (run w ticks) = []
  end.
Proof. apply run_store. Qed.

(** X12. Whenever the script stops between two cycles, even without
    closing the log, what has been flushed is a log it can resume: for a
    log grown from the empty log by earlier runs, the flushed part during
    a further run is empty or starts with the header and holds it once. *)
Theorem flushed_log_resumable (runs : list (list tick)) (ticks : list tick) :
  let flushed := disk (run (open_log (sessions [] runs)) ticks) in
  flushed = [] ∨ well_headed flushed.
Proof.
  intros flushed. subst flushed.
  pose proof (header_count_accepted ticks) as Hcount.
  destruct (sessions_from_empty runs) as [Hempty|[Hhd Hone]].
  - rewrite Hempty.
    pose proof (run_store ticks (open_log [])) as Hstore.
    destruct (accepted_rows ticks) as [|r rows]; destruct Hstore as [Hd _];
      rewrite Hd; [by left|].
    right. split; [done|].
    change (disk (open_log []) ++ buffer (open_log []) ++ r :: rows)
      with ([header] ++ (r :: rows)).
    by rewrite header_count_app, Hcount.
  - assert (open_log (sessions [] runs) = World (sessions [] runs) [] [])
      as Hopen.
    { unfold open_log. rewrite decide_False; [done|].
      intros Heq. by rewrite Heq in Hhd. }
    rewrite Hopen.
    pose proof (run_store ticks (World (sessions [] runs) [] [])) as Hstore.
    destruct (accepted_rows ticks) as [|r rows]; destruct Hstore as [Hd _];
      rewrite Hd; simpl; [by right|].
    right. split.
    + by destruct (sessions [] runs).
    + by rewrite header_count_app, Hcount, Hone.
Qed.

(** ** The reading and the units of a row *)

Section columns.

Lemma literal_token_nonempty (t : string) : literal_token t → t ≠ "".
Proof.
  intros (w & Hw & Ht) ->. apply literal_length in Hw.
  apply (f_equal String.length) in Ht. rewrite !lower_length in Ht.
  simpl in Ht. lia.
Qed.

Lemma numeric_token_nonempty (t : string) : numeric_token t → t ≠ "".
Proof.
  intros (sign & int & dot & frac & suffix & -> & _ & _ & _ & Hne & _) Heq.
  apply (f_equal String.length) in Heq.
  rewrite !length_app_str in Heq. destruct frac; [done|]. simpl in Heq. lia.
Qed.

Lemma extract_found (rest : string) (b e : nat) :
  Re.search reading_pattern rest = Some (b, e) →
  let reading := take_str (e - b) (drop_str b rest) in
  extract rest = (reading, strip (drop_str e rest))
  ∧ (literal_token reading ∨ numeric_token reading).
Proof.
  intros Hs reading. split; [unfold extract; by rewrite Hs|].
  destruct (search_some rest b e Hs) as (n & -> & Hm & _).
  subst reading. replace (b + n - b) with n by lia.
  by apply matched_is_token in Hm as [_ ?].
Qed.

Lemma last_char_cons (c : ascii) (s : string) :
  last_char (String c s) = Some (default c (last_char s)).
Proof.
  revert c. induction s as [|d s IH]; intros c; [done|].
  change (last_char (String c (String d s))) with (last_char (String d s)).
  by rewrite IH.
Qed.

Lemma fixed_last_char (s : string) : last_char (fixed s) = last_char s.
Proof.
  induction s as [|rest IH|c s Hsw IH] using scan_ind; [done|..].
  - rewrite fixed_marker, !last_char_cons. simpl. by rewrite IH.
  - rewrite fixed_other by done. by rewrite !last_char_cons, IH.
Qed.

Lemma fixed_head_char (s : string) :
  head_char (fixed s)
  = if startswith s marker then Some degree else head_char s.
Proof.
  destruct s as [|c s]; [done|].
  destruct (startswith (String c s) marker) eqn:Hsw.
  - by apply startswith_marker in Hsw as (rest & [= -> ->]).
  - by rewrite fixed_other.
Qed.

Lemma fixed_trimmed (s : string) : trimmed s → trimmed (fixed s).
Proof.
  intros [Hh Hl]. split.
  - rewrite fixed_head_char. by destruct (startswith s marker).
  - by rewrite fixed_last_char.
Qed.

Lemma extract_units_trimmed (rest : string) : trimmed (snd (extract rest)).
Proof.
  unfold extract.
  destruct (Re.search reading_pattern rest) as [[b e]|]; apply strip_trimmed.
Qed.

End columns.

(** X13. The reading that is extracted from a payload is empty exactly
    when no literal or numeric token starts at any position of the
    payload; a reading that is not empty is such a token. *)
Theorem extract_reading_empty_iff (rest : string) :
  let reading := fst (extract rest) in
  (reading = "" ↔ ∀ i, ¬ token_at rest i)
  ∧ (reading = "" ∨ literal_token reading ∨ numeric_token reading).
Proof.
  intros reading. subst reading.
  destruct (Re.search reading_pattern rest) as [[b e]|] eqn:Hs.
  - destruct (extract_found rest b e Hs) as [-> Htok]. simpl.
    split; [|by right]. split.
    + intros Hempty. rewrite Hempty in Htok.
      destruct Htok as [H%literal_token_nonempty|H%numeric_token_nonempty];
        done.
    + intros Hno. apply search_none in Hno. by rewrite Hno in Hs.
  - pose proof (proj1 (search_none rest) Hs) as Hno.
    rewrite (extract_none rest Hno). simpl. split; [done|by left].
Qed.

(** X14. The units column of every row that is written has no
    whitespace at either end and holds no "^C". *)
Theorem row_units_clean (t : tick) (r : row) :
  accepted t = Some r →
  ∃ units, r !! 4 = Some units
           ∧ trimmed units ∧ contains units marker = false.
Proof.
  unfold accepted, parse.
  destruct (frame_text (line t)) as [[|c tail]|]; [done| |done].
  case_bool_decide; [|done]. intros [= <-].
  unfold record_of.
  pose proof (extract_units_trimmed (strip tail)) as Htrim.
  destruct (extract (strip tail)) as [reading units]. simpl in Htrim.
  exists (fix_degree units). rewrite fix_degree_replace.
  split_and!; [done|by apply fixed_trimmed|apply fixed_clean].
Qed.

Lemma row_units_clean_witness :
  ∃ units,
    ["2026-01-01"; "12:00:00.123"; "TEMP"; "0023.5"; glyph] !! 4 = Some units
    ∧ trimmed units ∧ contains units marker = false.
Proof.
  apply (row_units_clean
           (Tick (bytes_of "T 0023.5  ^C " ++ [x0d])
              "2026-01-01" "12:00:00.123456")).
  vm_compute. reflexivity.
Defined.

(** X15. The degree-sign fix is idempotent: fixing fixed units changes
    nothing. *)
Theorem fix_degree_idempotent (units : string) :
  fix_degree (fix_degree units) = fix_degree units.
Proof.
  rewrite !fix_degree_replace.
  apply fixed_unmarked, fixed_clean.
Qed.

(** ** Greedy matching of the numeric branch *)

Section greedy.

Import Re.

Lemma startswith_cons_inv (s t : string) (c : ascii) :
  startswith s (String c t) = true →
  ∃ s', s = String c s' ∧ startswith s' t = true.
Proof.
  destruct s as [|d s']; simpl; [done|].
  case_decide as Hcd; [|done]. subst d. intros H. by exists s'.
Qed.

Lemma startswith_empty (t : string) : startswith "" t = true → t = "".
Proof. by destruct t. Qed.

Lemma match_items_prefix (its : list item) (s t : string) :
  lang its t → startswith s t = true → is_Some (match_items its s).
Proof.
  intros Ht Hs. rewrite (startswith_split s t Hs).
  by apply match_items_complete.
Qed.

Lemma lang_star_cases (p : ascii → bool) (r : list item) (t : string) :
  lang (Star p :: r) t →
  lang r t ∨ ∃ c t', t = String c t' ∧ p c = true ∧ lang (Star p :: r) t'.
Proof. inversion 1; subst; [by left|]. right. eauto. Qed.

Lemma maximal_nil : maximal [].
Proof. intros s n t _ ->%lang_nil_inv _. simpl. lia. Qed.

Lemma maximal_opt (p : ascii → bool) (r : list item) :
  maximal r → excludes p r → maximal (Opt p :: r).
Proof.
  intros Hr He s n t Hm Ht Hs.
  apply lang_opt_inv in Ht as [Ht|(c & t' & -> & Hc & Ht')].
  - destruct s as [|d s']; [by eapply Hr|]. simpl in Hm.
    destruct (p d) eqn:Hd; [|by eapply Hr].
    destruct (match_items r s') as [k|] eqn:Hk; [|by eapply Hr].
    destruct t as [|c t']; [simpl; lia|].
    apply startswith_cons_inv in Hs as (s'' & [= -> ->] & _).
    by rewrite (He _ _ Ht) in Hd.
  - apply startswith_cons_inv in Hs as (s' & -> & Hs'). simpl in Hm.
    rewrite Hc in Hm.
    destruct (match_items r s') as [k|] eqn:Hk.
    + injection Hm as <-. simpl. pose proof (Hr s' k t' Hk Ht' Hs'). lia.
    + destruct (match_items_prefix r s' t' Ht' Hs') as [k' Hk'].
      by rewrite Hk in Hk'.
Qed.

Lemma maximal_star_exclusive (p : ascii → bool) (r : list item) :
  maximal r → excludes p r → maximal (Star p :: r).
Proof.
  intros Hr He s. induction s as [|d s' IH]; intros n t Hm Ht Hs;
    rewrite match_star in Hm.
  - apply startswith_empty in Hs as ->. simpl. lia.
  - apply lang_star_cases in Ht as [Ht|(c & t' & -> & Hc & Ht')].
    + destruct (p d) eqn:Hd; [|by eapply Hr].
      destruct (match_items (Star p :: r) s') as [k|] eqn:Hk; [|by eapply Hr].
      destruct t as [|c t']; [simpl; lia|].
      apply startswith_cons_inv in Hs as (s'' & [= -> ->] & _).
      by rewrite (He _ _ Ht) in Hd.
    + apply startswith_cons_inv in Hs as (s'' & [= -> ->] & Hs').
      rewrite Hc in Hm.
      destruct (match_items (Star p :: r) s'') as [k|] eqn:Hk.
      * injection Hm as <-. simpl. pose proof (IH k t' eq_refl Ht' Hs'). lia.
      * destruct (match_items_prefix _ s'' t' Ht' Hs') as [k' Hk'].
        by rewrite Hk in Hk'.
Qed.

Lemma maximal_plus (p : ascii → bool) (r : list item) :
  maximal (Star p :: r) → maximal (Plus p :: r).
Proof.
  intros Hstar s n t Hm Ht Hs. rewrite match_plus in Hm.
  apply lang_plus_inv in Ht as (c & t' & -> & Hc & Ht').
  apply startswith_cons_inv in Hs as (s' & -> & Hs'). rewrite Hc in Hm.
  destruct (match_items (Star p :: r) s') as [k|] eqn:Hk; [|done].
  injection Hm as <-. simpl. pose proof (Hstar s' k t' Hk Ht' Hs'). lia.
Qed.

(** The character classes of the numeric branch are disjoint. *)
Lemma suffix_not_digit (c : ascii) : one_of "kmuz" c = true → digit c = false.
Proof. destruct c as [[] [] [] [] [] [] [] []]; by vm_compute. Qed.

Lemma suffix_not_dot (c : ascii) : one_of "kmuz" c = true → ci "." c = false.
Proof. destruct c as [[] [] [] [] [] [] [] []]; by vm_compute. Qed.

Lemma digit_not_dot (c : ascii) : digit c = true → ci "." c = false.
Proof. destruct c as [[] [] [] [] [] [] [] []]; by vm_compute. Qed.

Lemma digit_not_sign (c : ascii) : digit c = true → one_of "-+" c = false.
Proof. destruct c as [[] [] [] [] [] [] [] []]; by vm_compute. Qed.

Lemma dot_not_sign (c : ascii) : ci "." c = true → one_of "-+" c = false.
Proof. destruct c as [[] [] [] [] [] [] [] []]; by vm_compute. Qed.

Lemma first_of_r3 (c : ascii) (t : string) :
  lang r3 (String c t) → digit c = true.
Proof. by intros (c' & t' & [= -> ->] & Hc & _)%lang_plus_inv. Qed.

Lemma first_of_r2 (c : ascii) (t : string) :
  lang r2 (String c t) → digit c = true ∨ ci "." c = true.
Proof.
  intros [H|(c' & t' & [= -> ->] & Hc & _)]%lang_opt_inv; [|by right].
  left. by eapply first_of_r3.
Qed.

Lemma maximal_r4 : maximal r4.
Proof.
  apply maximal_opt; [apply maximal_nil|].
  intros c t H%lang_nil_inv. done.
Qed.

Lemma excludes_digit_r4 : excludes digit r4.
Proof.
  intros c t [H%lang_nil_inv|(c' & t' & [= -> ->] & Hc & _)]%lang_opt_inv;
    [done|]. by apply suffix_not_digit.
Qed.

Lemma maximal_r3 : maximal r3.
Proof.
  apply maximal_plus, maximal_star_exclusive;
    [apply maximal_r4|apply excludes_digit_r4].
Qed.

Lemma maximal_r2 : maximal r2.
Proof.
  apply maximal_opt; [apply maximal_r3|].
  intros c t H%first_of_r3. by apply digit_not_dot.
Qed.

(** A string of [r2] that starts with a digit goes on with a string of
    [r1], or ends with at most the suffix. *)
Lemma r2_after_digit (c : ascii) (t : string) :
  lang r2 (String c t) → digit c = true → lang r1 t ∨ lang r4 t.
Proof.
  intros [H|(c' & t' & [= -> ->] & Hc & _)]%lang_opt_inv Hd.
  - apply lang_plus_inv in H as (c' & t' & [= <- <-] & _ & H).
    apply lang_star_cases in H as [H|(d & t' & -> & Hdd & H)]; [by right|].
    left. apply lang_star_stop, lang_opt_skip. by apply lang_plus.
  - by rewrite (digit_not_dot _ Hd) in Hc.
Qed.

Lemma maximal_r1 : maximal r1.
Proof.
  intros s. induction s as [|d s' IH]; intros n t Hm Ht Hs;
    unfold r1 in Hm; rewrite match_star in Hm.
  - apply startswith_empty in Hs as ->. simpl. lia.
  - apply lang_star_cases in Ht as [Ht|(c & t' & -> & Hc & Ht')].
    + destruct (digit d) eqn:Hd; [|by eapply maximal_r2].
      destruct (match_items (Star digit :: r2) s') as [k|] eqn:Hk;
        [|by eapply maximal_r2].
      injection Hm as <-.
      destruct t as [|c t']; [simpl; lia|].
      apply startswith_cons_inv in Hs as (s'' & [= -> ->] & Hs').
      destruct (r2_after_digit _ _ Ht Hd) as [H1|H4].
      * simpl. pose proof (IH k t' Hk H1 Hs'). lia.
      * apply lang_opt_inv in H4
          as [->%lang_nil_inv|(u & t'' & -> & Hu & ->%lang_nil_inv)];
          [simpl; lia|].
        apply startswith_cons_inv in Hs' as (s3 & -> & _).
        rewrite match_star, (suffix_not_digit _ Hu) in Hk.
        unfold r2 in Hk. simpl in Hk.
        rewrite (suffix_not_dot _ Hu), (suffix_not_digit _ Hu) in Hk. done.
    + apply startswith_cons_inv in Hs as (s'' & [= -> ->] & Hs').
      rewrite Hc in Hm.
      destruct (match_items (Star digit :: r2) s'') as [k|] eqn:Hk.
      * injection Hm as <-. simpl. pose proof (IH k t' Hk Ht' Hs'). lia.
      * destruct (match_items_prefix _ s'' t' Ht' Hs') as [k' Hk'].
        unfold r1 in Hk'. by rewrite Hk in Hk'.
Qed.

Lemma maximal_numeric_branch : maximal numeric_branch.
Proof.
  apply (maximal_opt _ r1); [apply maximal_r1|].
  intros c t [H|(d & t' & [= -> ->] & Hd & _)]%lang_star_cases.
  - apply first_of_r2 in H as [H|H];
      [by apply digit_not_sign|by apply dot_not_sign].
  - by apply digit_not_sign.
Qed.

End greedy.

(** X16. The reading is the longest token at its position: no literal or
    numeric token that starts where the match starts is longer than the
    matched text (12.5 is never read as 12 or as 1). *)
Theorem reading_is_longest_token (rest : string) (b e : nat) (t : string) :
  Re.search reading_pattern rest = Some (b, e) →
  literal_token t ∨ numeric_token t →
  startswith (drop_str b rest) t = true →
  String.length t ≤ e - b.
Proof.
  intros (n & -> & Hm & _)%search_some Ht Hs.
  replace (b + n - b) with n by lia.
  destruct Ht as [Hlit|Hnum].
  - pose proof (matched_is_token _ n Hm) as [Hlen _].
    rewrite <- (literal_takes_precedence _ t n Hm Hlit Hs).
    by rewrite take_str_length.
  - apply numeric_token_lang in Hnum.
    destruct (match_items_prefix numeric_branch _ t Hnum Hs) as [k Hk].
    change (Re.match_alts reading_pattern (drop_str b rest))
      with (match Re.match_items numeric_branch (drop_str b rest) with
            | Some k => Some k
            | None => Re.match_alts literal_branches (drop_str b rest)
            end) in Hm.
    rewrite Hk in Hm. injection Hm as <-.
    by apply (maximal_numeric_branch _ k t Hk Hnum).
Qed.

Lemma reading_is_longest_token_witness : String.length "12.5" ≤ 5 - 1.
Proof.
  apply (reading_is_longest_token " 12.5V" 1 5 "12.5").
  - vm_compute. reflexivity.
  - right. exists "", "12", ".", "5", "".
    split_and!; [reflexivity| | | | | |];
      try (apply (bool_decide_unpack _); vm_compute; exact I);
      reflexivity.
  - reflexivity.
Defined.

(** ** Reading a formatted payload back *)

Section round_trip.

Import Re.

Lemma isspace_lower (c : ascii) : isspace (lower_char c) = isspace c.
Proof. destruct c as [[] [] [] [] [] [] [] []]; by vm_compute. Qed.

Lemma digit_not_space (c : ascii) : digit c = true → isspace c = false.
Proof. destruct c as [[] [] [] [] [] [] [] []]; by vm_compute. Qed.

Lemma no_space_lower (s : string) : no_space (lower s) = no_space s.
Proof.
  unfold no_space. induction s as [|c s IH]; [done|]. simpl.
  by rewrite isspace_lower, IH.
Qed.

Lemma no_space_app (a b : string) :
  no_space (a +:+ b) = no_space a && no_space b.
Proof. apply all_chars_app. Qed.

Lemma digits_no_space (s : string) :
  all_chars digit s = true → no_space s = true.
Proof.
  unfold no_space. induction s as [|c s IH]; [done|]. simpl.
  intros [Hc Hs]%andb_true_iff. by rewrite (digit_not_space c Hc), IH.
Qed.

Lemma literal_no_space (t : string) : literal_token t → no_space t = true.
Proof.
  intros (w & Hw & Ht). rewrite <- no_space_lower, Ht. clear Ht t.
  unfold literal_tokens in Hw.
  repeat (apply elem_of_cons in Hw as [->|Hw]; [reflexivity|]).
  by apply elem_of_nil in Hw.
Qed.

Lemma numeric_no_space (t : string) : numeric_token t → no_space t = true.
Proof.
  intros (sign & int & dot & frac & suffix & -> & Hsign & Hint & Hdot
          & _ & Hfrac & Hsuf).
  rewrite !no_space_app, (digits_no_space int Hint),
    (digits_no_space frac Hfrac).
  assert (no_space sign = true) as ->.
  { repeat (apply elem_of_cons in Hsign as [->|Hsign]; [reflexivity|]).
    by apply elem_of_nil in Hsign. }
  assert (no_space dot = true) as ->.
  { repeat (apply elem_of_cons in Hdot as [->|Hdot]; [reflexivity|]).
    by apply elem_of_nil in Hdot. }
  assert (no_space suffix = true) as ->; [|done].
  repeat (apply elem_of_cons in Hsuf as [->|Hsuf]; [reflexivity|]).
  by apply elem_of_nil in Hsuf.
Qed.

Lemma token_no_space (t : string) :
  literal_token t ∨ numeric_token t → no_space t = true.
Proof. intros [H|H]; [by apply literal_no_space|by apply numeric_no_space]. Qed.

Lemma take_app_exact (a b : string) : take_str (String.length a) (a +:+ b) = a.
Proof. apply startswith_take, startswith_app. Qed.

Lemma drop_app_exact (a b : string) : drop_str (String.length a) (a +:+ b) = b.
Proof.
  induction a as [|c a IH]; [done|]. rewrite app_cons. simpl. exact IH.
Qed.

(** A text without whitespace that starts [a +:+ after] stops within [a]
    when [after] starts with whitespace. *)
Lemma no_space_take_bound (a after : string) (n : nat) :
  space_led after → n ≤ String.length (a +:+ after) →
  no_space (take_str n (a +:+ after)) = true → n ≤ String.length a.
Proof.
  intros Hled. revert n. induction a as [|c a IH]; intros n Hn Hns.
  - rewrite app_empty_l in *. destruct n as [|n]; [simpl; lia|].
    destruct after as [|d after]; [simpl in Hn; lia|].
    unfold space_led in Hled. simpl in Hled, Hns.
    unfold no_space in Hns. simpl in Hns. by rewrite Hled in Hns.
  - rewrite app_cons in *. destruct n as [|n]; [simpl; lia|].
    simpl in *. unfold no_space in Hns. simpl in Hns.
    apply andb_true_iff in Hns as [_ Hns].
    assert (n ≤ String.length a); [|lia]. apply IH; [lia|done].
Qed.

(** The match is at least as long as any token that starts the text. *)
Lemma match_alts_longest (x t : string) (n : nat) :
  match_alts reading_pattern x = Some n →
  literal_token t ∨ numeric_token t →
  startswith x t = true → String.length t ≤ n.
Proof.
  intros Hm [Hlit|Hnum] Hs.
  - pose proof (matched_is_token _ n Hm) as [Hlen _].
    rewrite <- (literal_takes_precedence _ t n Hm Hlit Hs).
    by rewrite take_str_length.
  - apply numeric_token_lang in Hnum.
    destruct (match_items_prefix numeric_branch _ t Hnum Hs) as [k Hk].
    change (match_alts reading_pattern x)
      with (match match_items numeric_branch x with
            | Some k => Some k
            | None => match_alts literal_branches x
            end) in Hm.
    rewrite Hk in Hm. injection Hm as <-.
    by apply (maximal_numeric_branch _ k t Hk Hnum).
Qed.

Lemma extract_token_then (reading after : string) :
  literal_token reading ∨ numeric_token reading →
  space_led after →
  extract (reading +:+ after) = (reading, strip after).
Proof.
  intros Htok Hled.
  set (x := reading +:+ after).
  assert (startswith x reading = true) as Hstart by apply startswith_app.
  assert (token_at x 0) as Hat by (by exists reading).
  destruct (search reading_pattern x) as [[b e]|] eqn:Hs.
  - destruct (search_some x b e Hs) as (n & -> & Hm & Hbefore).
    destruct b as [|b]; [|destruct (Hbefore 0); [lia|done]].
    change (drop_str 0 x) with x in Hm.
    pose proof (match_alts_longest x reading n Hm Htok Hstart) as Hge.
    destruct (matched_is_token x n Hm) as [Hlen Hmt].
    apply token_no_space in Hmt.
    pose proof (no_space_take_bound reading after n Hled Hlen Hmt) as Hle.
    assert (n = String.length reading) as -> by lia.
    unfold extract. rewrite Hs. simpl.
    replace (String.length reading - 0) with (String.length reading) by lia.
    subst x. by rewrite take_app_exact, drop_app_exact.
  - pose proof (proj1 (search_none x) Hs) as Hno. by destruct (Hno 0).
Qed.

Lemma last_char_app (a b : string) :
  b ≠ "" → last_char (a +:+ b) = last_char b.
Proof.
  intros Hb. induction a as [|c a IH]; [done|].
  rewrite app_cons, last_char_cons, IH.
  destruct b as [|d b]; [done|]. by rewrite last_char_cons.
Qed.

Lemma token_head_not_space (t : string) :
  literal_token t ∨ numeric_token t →
  ∃ c t', t = String c t' ∧ isspace c = false.
Proof.
  intros Htok. pose proof (token_no_space t Htok) as Hns.
  destruct t as [|c t'].
  - destruct Htok as [H%literal_token_nonempty|H%numeric_token_nonempty]; done.
  - exists c, t'. split; [done|]. unfold no_space in Hns. simpl in Hns.
    apply andb_true_iff in Hns as [Hc _]. by apply negb_true_iff in Hc.
Qed.

End round_trip.

(** X17. Round trip of the extraction: a payload made of a literal or
    numeric token and, after it, nothing or a text that starts with
    whitespace gives back that token as the reading and the stripped
    text as the units. *)
Theorem extract_round_trip (reading after : string) :
  literal_token reading ∨ numeric_token reading →
  space_led after →
  extract (reading +:+ after) = (reading, strip after).
Proof. apply extract_token_then. Qed.

Lemma extract_round_trip_witness :
  extract ("-OL" +:+ "  MOhm ") = ("-OL", strip "  MOhm ").
Proof.
  apply extract_round_trip.
  - left. exists "-OL". split; [|reflexivity].
    apply (bool_decide_unpack _). vm_compute. exact I.
  - reflexivity.
Defined.

(** X18. A well-formed line is logged as it is: when the frame text is a
    mode letter of the table, a space, a literal or numeric token, a
    space and units that have no whitespace at their ends and no "^C",
    the row of the cycle holds the mode name of the letter, that token
    and those units. *)
Theorem well_formed_line_logged
    (t : tick) (c : ascii) (reading units : string) :
  c ∈ first_byte_chars →
  literal_token reading ∨ numeric_token reading →
  trimmed units → contains units marker = false →
  frame_text (line t)
  = Some (String c (" " +:+ reading +:+ " " +:+ units)) →
  accepted t
  = Some [date_str t; drop_last3 (time_us t); mode_of c; reading; units].
Proof.
  intros Hc Htok Htrim Hclean Hframe.
  assert (trimmed (String c (" " +:+ reading +:+ " " +:+ units))) as [_ Hlast].
  { unfold frame_text in Hframe. destruct (last (line t)); [|done].
    case_decide; [|done]. injection Hframe as <-. apply strip_trimmed. }
  assert (units ≠ "") as Hne.
  { intros ->.
    assert (last_char (" " +:+ reading +:+ " " +:+ "") = Some " "%char) as Hl.
    { rewrite (last_char_app " "); [|by destruct reading].
      by rewrite (last_char_app reading). }
    rewrite last_char_cons, Hl in Hlast. done. }
  destruct (token_head_not_space reading Htok) as (d & r' & Hr & Hd).
  assert (strip (" " +:+ reading +:+ " " +:+ units)
          = reading +:+ " " +:+ units) as Hstrip.
  { unfold strip. rewrite app_cons, app_empty_l.
    change (lstrip (String " " (reading +:+ " " +:+ units)))
      with (lstrip (reading +:+ " " +:+ units)).
    rewrite lstrip_fixed; [|by rewrite Hr, app_cons; simpl].
    apply rstrip_fixed.
    rewrite last_char_app; [|by destruct units].
    rewrite app_cons, app_empty_l, last_char_cons.
    destruct Htrim as [_ Hl]. destruct (last_char units) eqn:Hu; [done|].
    destruct units as [|u units]; [done|]. by rewrite last_char_cons in Hu. }
  unfold accepted. rewrite Hframe. simpl.
  rewrite bool_decide_eq_true_2 by done.
  unfold record_of. rewrite Hstrip.
  rewrite (extract_token_then reading (" " +:+ units) Htok); [|done].
  assert (strip (" " +:+ units) = units) as ->.
  { unfold strip. rewrite app_cons, app_empty_l.
    change (lstrip (String " " units)) with (lstrip units).
    by apply strip_fixed. }
  unfold fix_degree. fold marker. by rewrite Hclean.
Qed.

Lemma well_formed_line_logged_witness :
  accepted (Tick (bytes_of "D 007.50 mV" ++ [x0d]) "2026-01-01" "12:00:00.123456")
  = Some ["2026-01-01"; "12:00:00.123"; "DC"; "007.50"; "mV"].
Proof.
  apply (well_formed_line_logged
           (Tick (bytes_of "D 007.50 mV" ++ [x0d])
              "2026-01-01" "12:00:00.123456") "D" "007.50" "mV").
  - apply (bool_decide_unpack _). vm_compute. exact I.
  - right. exists "", "007", ".", "50", "".
    split_and!; [reflexivity| | | | | |];
      try (apply (bool_decide_unpack _); vm_compute; exact I);
      reflexivity.
  - split; reflexivity.
  - reflexivity.
  - reflexivity.
Defined.
